(** * stremio-ncore-addon: the stream controller

    A shallow embedding of [server/src/controllers/stream.controller.ts]
    (class [StreamController]) and the properties its design document
    states about it.

    Conventions of the embedding.
    - A JavaScript string is a [string]: a sequence of 8-bit code units.
      File contents are the decoded text, HTTP header values are Latin-1.
    - A JavaScript number that the controller only uses as an integer
      (byte offsets, lengths, track and segment indices) is a [Z]; the
      media duration, a fractional number of seconds, is an exact
      rational [Q] (rounding of the binary representation is not
      modelled).
    - [async] code is a computation over an explicit [World] (files,
      directories, console, spawned processes).  Every [await] hands
      control to the environment, which is a parameter of the model.  A
      computation returns, throws, or is still pending when the fuel
      given to its polling loops is used up. *)

From Stdlib Require Import ZArith QArith Qround Ascii.
From stdpp Require Import base gmap sets list strings pretty.

Local Open Scope Z_scope.

(** ** JavaScript strings and arrays *)

Module JS.

(** [s.startsWith(p)] *)
Definition startsWith (s p : string) : bool := String.prefix p s.

(** [s.includes(p)]: [p] occurs somewhere in [s]. *)
Fixpoint includes (s p : string) : bool :=
  String.prefix p s ||
  match s with
  | EmptyString => false
  | String _ r => includes r p
  end.

(** [s.split(c)] for a one-character separator [c]; never empty. *)
Fixpoint split (c : ascii) (s : string) : list string :=
  match s with
  | EmptyString => [EmptyString]
  | String a r =>
      if Ascii.eqb a c then EmptyString :: split c r
      else match split c r with
           | h :: t => String a h :: t
           | [] => [String a EmptyString]
           end
  end.

(** [l.join(sep)] *)
Fixpoint join (sep : string) (l : list string) : string :=
  match l with
  | [] => EmptyString
  | [x] => x
  | x :: r => x +:+ sep +:+ join sep r
  end.

(** [l.findIndex(p)], with the JavaScript result [-1] when no element
    satisfies [p]. *)
Fixpoint findIndex {A} (p : A → bool) (l : list A) : Z :=
  match l with
  | [] => -1
  | x :: r =>
      if p x then 0
      else let k := findIndex p r in if k =? -1 then -1 else k + 1
  end.

(** [l.splice(start, 0, item)]: insertion, nothing deleted.  A negative
    [start] counts from the end, and [start] is clamped to the length. *)
Definition splice_insert {A} (start : Z) (item : A) (l : list A) : list A :=
  let len := Z.of_nat (length l) in
  let k := if start <? 0 then Z.max (len + start) 0 else Z.min start len in
  take (Z.to_nat k) l ++ item :: drop (Z.to_nat k) l.

(** [String(n)] / [`${n}`] / [n.toString()] for an integer [n]. *)
Definition toString (n : Z) : string := pretty n.

(** [count] characters of [pad] repeated cyclically. *)
Fixpoint cycle (pad cur : string) (count : nat) : string :=
  match count with
  | O => EmptyString
  | S k =>
      match cur with
      | String a r => String a (cycle pad r k)
      | EmptyString =>
          match pad with
          | String a r => String a (cycle pad r k)
          | EmptyString => EmptyString
          end
      end
  end.

(** [s.padStart(n, pad)] *)
Definition padStart (n : nat) (pad : string) (s : string) : string :=
  if (n <=? String.length s)%nat then s
  else cycle pad pad (n - String.length s) +:+ s.

(** [path.join(a, b, ...)] on components that are already normalised:
    the components separated by a slash. *)
Definition path_join (parts : list string) : string := join "/" parts.

(** [path.basename(p)]: what follows the last slash. *)
Fixpoint basename (p : string) : string :=
  match p with
  | EmptyString => EmptyString
  | String a r =>
      if includes r "/" then basename r
      else if Ascii.eqb a "/" then r else String a r
  end.

End JS.

(** ** Regular expressions

    The controller tests the [User-Agent] header and subtitle titles
    against regular-expression literals.  [RegExp.prototype.test] is an
    unanchored search, computed here with Brzozowski derivatives. *)

Module Regex.

Inductive regex : Type :=
| Void
| Eps
| Cls (p : ascii → bool)
| Cat (r1 r2 : regex)
| Alt (r1 r2 : regex)
| Star (r : regex).

Fixpoint nullable (r : regex) : bool :=
  match r with
  | Void => false
  | Eps => true
  | Cls _ => false
  | Cat r1 r2 => nullable r1 && nullable r2
  | Alt r1 r2 => nullable r1 || nullable r2
  | Star _ => true
  end.

Fixpoint deriv (a : ascii) (r : regex) : regex :=
  match r with
  | Void => Void
  | Eps => Void
  | Cls p => if p a then Eps else Void
  | Cat r1 r2 =>
      if nullable r1 then Alt (Cat (deriv a r1) r2) (deriv a r2)
      else Cat (deriv a r1) r2
  | Alt r1 r2 => Alt (deriv a r1) (deriv a r2)
  | Star r1 => Cat (deriv a r1) (Star r1)
  end.

Fixpoint matches (r : regex) (s : string) : bool :=
  match s with
  | EmptyString => nullable r
  | String a s' => matches (deriv a r) s'
  end.

Definition any : regex := Cls (λ _, true).
Definition chr (c : ascii) : regex := Cls (Ascii.eqb c).

(** A literal run of characters, as in [/CrKey/]. *)
Fixpoint lit (s : string) : regex :=
  match s with
  | EmptyString => Eps
  | String a r => Cat (chr a) (lit r)
  end.

(** The letters of a literal under the [i] flag, for ASCII letters. *)
Definition lower (c : ascii) : ascii :=
  let n := nat_of_ascii c in
  if ((65 <=? n) && (n <=? 90))%nat then ascii_of_nat (n + 32) else c.
Definition chr_i (c : ascii) : regex :=
  Cls (λ a, Ascii.eqb (lower a) (lower c)).
Fixpoint lit_i (s : string) : regex :=
  match s with
  | EmptyString => Eps
  | String a r => Cat (chr_i a) (lit_i r)
  end.

(** [.] matches every character but a line terminator; [\s] matches
    white space.  Within 8-bit code units these are LF and CR, and TAB,
    LF, VT, FF, CR, space and the no-break space. *)
Definition isLineTerminator (a : ascii) : bool :=
  let n := nat_of_ascii a in ((n =? 10) || (n =? 13))%nat.
Definition isWhiteSpace (a : ascii) : bool :=
  let n := nat_of_ascii a in
  (((9 <=? n) && (n <=? 13)) || (n =? 32) || (n =? 160))%nat.
Definition dot : regex := Cls (λ a, negb (isLineTerminator a)).
Definition space : regex := Cls isWhiteSpace.

(** [re.test(s)] *)
Definition test (r : regex) (s : string) : bool :=
  matches (Cat (Star any) (Cat r (Star any))) s.

(** What it means for a string to match, and to contain a match. *)
Inductive Matches : regex → string → Prop :=
| MEps : Matches Eps EmptyString
| MCls p a : p a = true → Matches (Cls p) (String a EmptyString)
| MCat r1 r2 s1 s2 :
    Matches r1 s1 → Matches r2 s2 → Matches (Cat r1 r2) (s1 +:+ s2)
| MAltL r1 r2 s : Matches r1 s → Matches (Alt r1 r2) s
| MAltR r1 r2 s : Matches r2 s → Matches (Alt r1 r2) s
| MStar0 r : Matches (Star r) EmptyString
| MStarS r s1 s2 :
    Matches r s1 → Matches (Star r) s2 → Matches (Star r) (s1 +:+ s2).

Definition Found (r : regex) (s : string) : Prop :=
  ∃ pre mid post, s = pre +:+ mid +:+ post ∧ Matches r mid.

End Regex.

(** ** Data model *)

Module Audio.
Record t := mk
  { index : Z; name : string; language : string;
    default : bool; codec : string }.
End Audio.

Module Subtitle.
Record t := mk
  { index : Z; title : string; language : string;
    forced : bool; default : bool }.
End Subtitle.

Record CodecInfo := mkCodecInfo
  { videoCodec : option string;
    pixFmt : option string;
    subtitles : list Subtitle.t;
    audioStreams : list Audio.t;
    duration : Q }.

(** A file of a torrent.  The byte streams it hands out are opaque; a
    response body that streams a span of it refers to the file. *)
Module TorrentFile.
Record t := mk { path : string; length : Z }.
End TorrentFile.

Record Torrent := mkTorrent { torrent_files : list TorrentFile.t }.

(** What [ffprobe] reports. *)
Record Tags := mkTags
  { tag_title : option string; tag_language : option string }.
Record ProbeStream := mkProbeStream
  { codec_type : option string; codec_name : option string;
    pix_fmt : option string; tags : option Tags }.
Record Metadata := mkMetadata
  { format_duration : option Q; streams : list ProbeStream }.

(** Requests and responses. *)
Record Request := mkRequest
  { method : string;
    header_range : option string;
    header_userAgent : option string }.

Inductive Body : Type :=
| BodyNull
| BodyText (content : string)
| BodyStream (file : TorrentFile.t) (start end_ : Z).

Record Response := mkResponse
  { status : Z; headers : list (string * string); body : Body }.

(** The value of a header of a response. *)
Definition getHeader (name : string) (r : Response) : option string :=
  snd <$> find (λ kv, String.eqb (fst kv) name) (headers r).

Inductive Error : Type :=
| HTTPException (status : Z) (message : string)
| FsError (path : string)
| ProbeFailure
| TypeError.

Inductive LogEntry : Type :=
| ConsoleLog (message : string)
| ConsoleError (message : string) (err : option Error).

(** An external encoder process: its argument vector and what its exit
    handler is attached to. *)
Inductive JobKind := VideoJob | AudioJob (index : Z) | SubtitleJob (index : Z).
Record Process := mkProcess { kind : JobKind; args : list string }.

(** ** The world and asynchronous computations *)

Record World := mkWorld
  { files : gmap string string;
    dirs : gset string;
    (* whether the operating system lets the server create or overwrite
       that path (parent directory, permissions, free space) *)
    writable : string → bool;
    console : list LogEntry;
    spawned : list Process;
    clock : nat }.

Inductive Result (A : Type) : Type :=
| Ok (a : A)
| Throw (e : Error)
| Pending.
Arguments Ok {A} a.
Arguments Throw {A} e.
Arguments Pending {A}.

Definition M (A : Type) : Type := World → Result A * World.

Definition ret {A} (a : A) : M A := λ w, (Ok a, w).
Definition bind {A B} (m : M A) (f : A → M B) : M B := λ w,
  match m w with
  | (Ok a, w') => f a w'
  | (Throw e, w') => (Throw e, w')
  | (Pending, w') => (Pending, w')
  end.

Notation "x <~ m ;; k" := (bind m (λ x, k))
  (at level 100, m at next level, right associativity, only parsing).
Notation "m ;;; k" := (bind m (λ _, k))
  (at level 100, right associativity, only parsing).

Definition throw {A} (e : Error) : M A := λ w, (Throw e, w).

(** [try { m } catch (err) { h err }] *)
Definition try_catch {A} (m : M A) (h : Error → M A) : M A := λ w,
  match m w with
  | (Throw e, w') => h e w'
  | r => r
  end.

Definition console_log (msg : string) : M () := λ w,
  (Ok (), mkWorld (files w) (dirs w) (writable w)
            (console w ++ [ConsoleLog msg]) (spawned w) (clock w)).
Definition console_error (msg : string) (err : option Error) : M () := λ w,
  (Ok (), mkWorld (files w) (dirs w) (writable w)
            (console w ++ [ConsoleError msg err]) (spawned w) (clock w)).

Definition spawn (p : Process) : M () := λ w,
  (Ok (), mkWorld (files w) (dirs w) (writable w) (console w)
            (spawned w ++ [p]) (clock w)).

(** [existsSync(p)]: a file or a directory is there. *)
Definition existsSync (p : string) (w : World) : bool :=
  bool_decide (is_Some (files w !! p)) || bool_decide (p ∈ dirs w).

(** [mkdirSync(p, { recursive: true })].  The ancestors it creates on the
    way are not tracked. *)
Definition mkdirSync (p : string) : M () := λ w,
  if writable w p
  then (Ok (), mkWorld (files w) ({[p]} ∪ dirs w) (writable w) (console w)
                 (spawned w) (clock w))
  else (Throw (FsError p), w).

Section Environment.

(** What everything else (the encoder processes, their exit handlers)
    does to the world while the request is suspended: [env n] is the
    environment's move at the [n]-th suspension. *)
Variable env : nat → World → World.

Definition yield : M () := λ w,
  let w' := env (clock w) w in
  (Ok (), mkWorld (files w') (dirs w') (writable w') (console w')
            (spawned w') (S (clock w))).

(** [await new Promise((resolve) => setTimeout(resolve, 100))] *)
Definition sleep : M () := yield.

(** [await fs.promises.readFile(p, 'utf-8')] *)
Definition readFile (p : string) : M string :=
  yield ;;;
  λ w, match files w !! p with
       | Some c => (Ok c, w)
       | None => (Throw (FsError p), w)
       end.

(** [await fs.promises.writeFile(p, c, 'utf-8')] *)
Definition writeFile (p c : string) : M () :=
  yield ;;;
  λ w, if writable w p
       then (Ok (), mkWorld (<[p := c]> (files w)) (dirs w) (writable w)
                      (console w) (spawned w) (clock w))
       else (Throw (FsError p), w).

(** [for (const x of l) { f(x) }], [f] awaited or not *)
Fixpoint for_of {A} (l : list A) (f : A → M ()) : M () :=
  match l with
  | [] => ret ()
  | x :: r => f x ;;; for_of r f
  end.

(** [while (!existsSync(p)) await sleep], for at most [fuel] rounds. *)
Fixpoint wait_until_exists (p : string) (fuel : nat) : M () :=
  λ w,
    if existsSync p w then (Ok (), w)
    else match fuel with
         | O => (Pending, w)
         | S k => (sleep ;;; wait_until_exists p k) w
         end.

(** The world after [n] suspensions in which the request itself does
    nothing. *)
Fixpoint advance (n : nat) (w : World) : World :=
  match n with
  | O => w
  | S k => advance k (yield w).2
  end.

(** Assumptions on the environment: it removes no file and no
    directory; it keeps the directory [p]; it never brings [p] into
    existence. *)
Definition never_deletes : Prop :=
  ∀ n w p,
    (is_Some (files w !! p) → is_Some (files (env n w) !! p))
    ∧ (p ∈ dirs w → p ∈ dirs (env n w)).
Definition keeps_dir (p : string) : Prop :=
  ∀ n w, p ∈ dirs w → p ∈ dirs (env n w).
Definition never_creates (p : string) : Prop :=
  ∀ n w, existsSync p w = false → existsSync p (env n w) = false.

End Environment.

(** The environment that does nothing. *)
Definition idle : nat → World → World := λ _ w, w.

(** ** The external encoder's view of its arguments

    The encoder is told where to put its output through its argument
    vector.  The segment file template is printf-like: [%0Nd] stands for
    the segment number in decimal, padded with zeros to [N] digits;
    the playlist it writes is its last argument; segments are numbered
    from [-start_number], which defaults to [0].  Segment numbers are not
    negative. *)

Module Encoder.

Inductive scan := Plain | Spec (width : nat) (raw : string).

Definition zero_pad (width : nat) (n : Z) : string :=
  JS.padStart width "0" (JS.toString n).

Fixpoint expand_go (st : scan) (t : string) (n : Z) : string :=
  match t with
  | EmptyString =>
      match st with Plain => EmptyString | Spec _ raw => raw end
  | String a r =>
      match st with
      | Plain =>
          if Ascii.eqb a "%" then expand_go (Spec 0 "%") r n
          else String a (expand_go Plain r n)
      | Spec w raw =>
          match Ascii.is_nat a with
          | Some d =>
              expand_go (Spec (10 * w + d) (raw +:+ String a EmptyString)) r n
          | None =>
              if Ascii.eqb a "d" then zero_pad w n +:+ expand_go Plain r n
              else raw +:+ String a (expand_go Plain r n)
          end
      end
  end.

Definition expand (template : string) (n : Z) : string :=
  expand_go Plain template n.

(** The argument that follows [flag]. *)
Fixpoint argAfter (flag : string) (args : list string) : option string :=
  match args with
  | a :: ((b :: _) as r) =>
      if String.eqb a flag then Some b else argAfter flag r
  | _ => None
  end.

Definition segmentTemplate (p : Process) : option string :=
  argAfter "-hls_segment_filename" (args p).
Definition playlistPath (p : Process) : option string :=
  last (args p).
Definition startNumber (p : Process) : string :=
  default "0" (argAfter "-start_number" (args p)).

End Encoder.

(** ** The controller *)

Definition dq : string := String (ascii_of_nat 34) EmptyString.
Definition newline : ascii := ascii_of_nat 10.
Definition nl : string := String newline EmptyString.

(** [o || d] on an optional string: the empty string is falsy too. *)
Definition or_default (o : option string) (d : string) : string :=
  match o with
  | Some s => if String.eqb s EmptyString then d else s
  | None => d
  end.

(** [l[i]] for a numeric index. *)
Definition at_index {A} (l : list A) (i : Z) : option A :=
  if i <? 0 then None else l !! Z.to_nat i.

(** [Math.ceil(a / b)] and [Math.round(a)] *)
Definition Math_ceil (q : Q) : Z := Qceiling q.
Definition Math_round (q : Q) : Z := Qfloor (q + (1 # 2))%Q.

Record PlayParams := mkPlayParams
  { sourceName : string; sourceId : string; infoHash : string;
    fileIdx : Z; type : string }.

Definition hlsTime : Z := 10.

(** [`segment_${i.toString().padStart(3, '0')}.ts`] *)
Definition videoSegmentName (i : Z) : string :=
  "segment_" +:+ JS.padStart 3 "0" (JS.toString i) +:+ ".ts".

(** The array [m3u8Content] of [generatePreGeneratedM3U8Video] when it is
    joined; the loop runs over [i = 0, ..., numberOfSegments - 1] and
    pushes two lines each time. *)
Definition video_m3u8Content (codecInfo : CodecInfo) : list string :=
  let numberOfSegments := Math_ceil (duration codecInfo / inject_Z hlsTime)%Q in
  [ "#EXTM3U"; "#EXT-X-VERSION:3";
    "#EXT-X-TARGETDURATION:" +:+ JS.toString hlsTime;
    "#EXT-X-MEDIA-SEQUENCE:0" ]
  ++ concat ((λ i, [ "#EXTINF:" +:+ JS.toString hlsTime +:+ ",";
                     videoSegmentName i ]) <$> seqZ 0 numberOfSegments)
  ++ [ "#EXT-X-ENDLIST" ].

(** [`audio_${audioStream.index}_${i.toString().padStart(3, '0')}.ts`] *)
Definition audioSegmentName (index i : Z) : string :=
  "audio_" +:+ JS.toString index +:+ "_"
  +:+ JS.padStart 3 "0" (JS.toString i) +:+ ".ts".

(** The array [m3u8Content] of [generatePreGeneratedM3U8Audio] for one
    audio stream, when it is joined. *)
Definition audio_m3u8Content (codecInfo : CodecInfo) (audioStream : Audio.t)
  : list string :=
  let numberOfSegments := Math_ceil (duration codecInfo / inject_Z hlsTime)%Q in
  [ "#EXTM3U"; "#EXT-X-VERSION:3";
    "#EXT-X-TARGETDURATION:" +:+ JS.toString hlsTime;
    "#EXT-X-MEDIA-SEQUENCE:0" ]
  ++ concat ((λ i, [ "#EXTINF:" +:+ JS.toString hlsTime +:+ ",";
                     audioSegmentName (Audio.index audioStream) i ])
             <$> seqZ 0 numberOfSegments)
  ++ [ "#EXT-X-ENDLIST" ].

(** The arrays [hlsArgs], [audioArgs] and [subtitleArgs] of [generateHLS]. *)
Definition hlsArgs (outputDir basePath : string) (codecInfo : CodecInfo)
  : list string :=
  [ "-i"; "pipe:0" ]
  ++ (if bool_decide (videoCodec codecInfo = Some "h264")
         && negb (match pixFmt codecInfo with
                  | Some f => JS.includes f "10"
                  | None => false
                  end)
      then [ "-c:v"; "copy" ]
      else [ "-c:v"; "libx264"; "-preset"; "ultrafast" ])
  ++ [ "-an"; "-g"; "250"; "-start_number"; "0"; "-hls_time"; "10";
       "-hls_list_size"; "0"; "-hls_segment_filename";
       JS.path_join [outputDir; "segment_%03d.ts"];
       "-hls_base_url"; basePath; "-f"; "hls";
       "-hls_playlist_type"; "vod"; "-tune"; "zerolatency";
       JS.path_join [outputDir; "video.m3u8"] ].

Definition audioArgs (outputDir : string) (audio : Audio.t) : list string :=
  [ "-i"; "pipe:0"; "-map"; "0:a:" +:+ JS.toString (Audio.index audio) ]
  ++ (if String.eqb (Audio.codec audio) "aac"
      then [ "-c:a"; "copy" ] else [ "-c:a"; "aac" ])
  ++ [ "-ac"; "2"; "-hls_list_size"; "0"; "-hls_time"; "10";
       "-hls_segment_filename";
       JS.path_join [outputDir;
                     "audio_" +:+ JS.toString (Audio.index audio) +:+ "_%03d.ts"];
       "-f"; "hls"; "-hls_playlist_type"; "vod"; "-tune"; "zerolatency";
       JS.path_join [outputDir;
                     "audio_" +:+ JS.toString (Audio.index audio) +:+ ".m3u8"] ].

Definition subtitleArgs (outputDir : string) (subtitle : Subtitle.t)
  : list string :=
  [ "-i"; "pipe:0"; "-map"; "0:s:" +:+ JS.toString (Subtitle.index subtitle);
    "-scodec"; "webvtt";
    JS.path_join [outputDir;
                  "subtitles_" +:+ JS.toString (Subtitle.index subtitle)
                  +:+ ".vtt"] ].

(** [generateHLS]: it runs to its end without suspending, starting one
    process for the video, one per audio stream and one per subtitle.
    Its argument [file] only supplies the input streams of the processes
    and is left out; [play] gets here with a defined file only. *)
Definition generateHLS (outputDir basePath : string) (codecInfo : CodecInfo)
  : M () :=
  spawn (mkProcess VideoJob (hlsArgs outputDir basePath codecInfo)) ;;;
  for_of (audioStreams codecInfo) (λ audio,
    spawn (mkProcess (AudioJob (Audio.index audio))
             (audioArgs outputDir audio))) ;;;
  for_of (subtitles codecInfo) (λ subtitle,
    spawn (mkProcess (SubtitleJob (Subtitle.index subtitle))
             (subtitleArgs outputDir subtitle))).

Definition timestampMap : string :=
  "X-TIMESTAMP-MAP=LOCAL:00:00:00.000,MPEGTS:135000".

(** [(line) => line.startsWith('WEBVTT')] *)
Definition isHeader (line : string) : bool := JS.startsWith line "WEBVTT".

(** The array [lines] of [patchVttWithTimestampMap] when it is joined. *)
Definition patchedLines (content : string) : list string :=
  let lines := JS.split newline content in
  let headerIndex := JS.findIndex isHeader lines in
  if negb (headerIndex =? -1)
  then JS.splice_insert (headerIndex + 1) timestampMap lines
  else lines.

(** The master playlist's lines. *)
Definition master_m3u8Content (codecInfo : CodecInfo) : list string :=
  [ "#EXTM3U" ]
  ++ ((λ subtitle : Subtitle.t,
         "#EXT-X-MEDIA:TYPE=SUBTITLES,GROUP-ID=" +:+ dq +:+ dq
         +:+ ",NAME=" +:+ dq
         +:+ (if String.eqb
                   (Subtitle.title subtitle +:+ Subtitle.language subtitle
                    +:+ (if Subtitle.forced subtitle then "true" else "false"))
                   EmptyString
              then EmptyString else " (Forced)")
         +:+ dq +:+ ",LANGUAGE=" +:+ dq +:+ Subtitle.language subtitle +:+ dq
         +:+ ",DEFAULT=" +:+ (if Subtitle.default subtitle then "YES" else "NO")
         +:+ ",AUTOSELECT=NO,FORCED="
         +:+ (if Subtitle.forced subtitle then "YES" else "NO")
         +:+ ",URI=" +:+ dq +:+ "hls/subtitles_"
         +:+ JS.toString (Subtitle.index subtitle) +:+ ".m3u8" +:+ dq)
      <$> subtitles codecInfo)
  ++ ((λ audio : Audio.t,
         "#EXT-X-MEDIA:TYPE=AUDIO,GROUP-ID=" +:+ dq +:+ dq
         +:+ ",NAME=" +:+ dq +:+ Audio.name audio +:+ dq
         +:+ ",DEFAULT=" +:+ (if Audio.default audio then "YES" else "NO")
         +:+ ",AUTOSELECT=YES,LANGUAGE=" +:+ dq +:+ Audio.language audio +:+ dq
         +:+ ",URI=" +:+ dq +:+ "hls/audio_"
         +:+ JS.toString (Audio.index audio) +:+ ".m3u8" +:+ dq)
      <$> audioStreams codecInfo)
  ++ [ "#EXT-X-STREAM-INF:SUBTITLES=" +:+ dq +:+ dq +:+ ",AUDIO=" +:+ dq +:+ dq;
       "hls/video.m3u8" ].

(** [getFileCodecInfoFromStream], from what the probe reports. *)
Definition codecInfoOfMetadata (metadata : Metadata) : CodecInfo :=
  let videoStream :=
    find (λ s, bool_decide (codec_type s = Some "video")) (streams metadata) in
  let title_of (s : ProbeStream) := tags s ≫= tag_title in
  let language_of (s : ProbeStream) := tags s ≫= tag_language in
  let subtitleStreams :=
    imap (λ index s,
            Subtitle.mk (Z.of_nat index)
              (or_default (title_of s) (JS.toString (Z.of_nat index + 1)))
              (or_default (language_of s) "unknown")
              (Regex.test (Regex.lit_i "forced")
                 (default "undefined" (title_of s)))
              (bool_decide (index = 0%nat)))
      (filter (λ s, codec_type s = Some "subtitle") (streams metadata)) in
  let audioStreams :=
    imap (λ index s,
            Audio.mk (Z.of_nat index)
              (or_default (title_of s) (JS.toString (Z.of_nat index + 1)))
              (or_default (language_of s) "unknown")
              (bool_decide (index = 0%nat))
              (or_default (codec_name s) "unknown"))
      (filter (λ s, codec_type s = Some "audio") (streams metadata)) in
  mkCodecInfo (videoStream ≫= codec_name) (videoStream ≫= pix_fmt)
    subtitleStreams audioStreams
    (default (3600 # 1)%Q (format_duration metadata)).

Section StreamController.

(** The environment of the request (see [yield]). *)
Variable env : nat → World → World.

(** Configuration and collaborators, which the controller only calls:
    [env.ADDON_DIR]; the constants of [HttpStatusCode]; the [mime]
    package; the conversion of a fractional number to a string; the
    [ffprobe] run on the head of a file; the schema of the route
    parameters; the torrent store and the torrent sources; and
    [parseRangeHeader], which yields a span or nothing. *)
Variable ADDON_DIR : string.
Variables BAD_REQUEST NOT_FOUND : Z.
Variable mime_getType : string → option string.
Variable Number_toString : Q → string.
Variable ffprobe : TorrentFile.t → option Metadata.
Variable Params : Type.
Variable playSchema_safeParse : Params → string + PlayParams.
Variable getTorrent : string → option Torrent.
Variable getTorrentUrlBySourceId : string → string → option string.
Variable downloadTorrentFile : string → Error + string.
Variable addTorrent : string → Error + Torrent.
Variable parseRangeHeader : option string → Z → option (Z * Z).

(** [await p] for a promise of a collaborator. *)
Definition await {A} (p : Error + A) : M A :=
  yield env ;;;
  match p with inl e => throw e | inr a => ret a end.

Definition generatePreGeneratedM3U8Subtitle
    (outputDir : string) (codecInfo : CodecInfo) : M () :=
  for_of (subtitles codecInfo) (λ subtitle,
    let m3u8Content :=
      [ "#EXTM3U"; "#EXT-X-VERSION:3";
        "#EXT-X-TARGETDURATION:"
          +:+ JS.toString (Math_round (duration codecInfo));
        "#EXT-X-MEDIA-SEQUENCE:0";
        "#EXTINF:" +:+ Number_toString (duration codecInfo) +:+ ",";
        "subtitles_" +:+ JS.toString (Subtitle.index subtitle) +:+ ".vtt";
        "#EXT-X-ENDLIST" ] in
    let m3u8Path :=
      JS.path_join [outputDir;
                    "subtitles_" +:+ JS.toString (Subtitle.index subtitle)
                    +:+ ".m3u8"] in
    writeFile env m3u8Path (JS.join nl m3u8Content)).

Definition generatePreGeneratedM3U8Audio
    (outputDir : string) (codecInfo : CodecInfo) : M () :=
  for_of (audioStreams codecInfo) (λ audioStream,
    let m3u8Path :=
      JS.path_join [outputDir;
                    "audio_" +:+ JS.toString (Audio.index audioStream)
                    +:+ ".m3u8"] in
    writeFile env m3u8Path
      (JS.join nl (audio_m3u8Content codecInfo audioStream))).

Definition generatePreGeneratedM3U8Video
    (outputDir : string) (codecInfo : CodecInfo) : M () :=
  let m3u8Path := JS.path_join [outputDir; "video.m3u8"] in
  writeFile env m3u8Path (JS.join nl (video_m3u8Content codecInfo)).

Definition generatePreGeneratedM3U8Master
    (outputDir : string) (codecInfo : CodecInfo) : M () :=
  let m3u8Path := JS.path_join [outputDir; "master.m3u8"] in
  writeFile env m3u8Path (JS.join nl (master_m3u8Content codecInfo)).

Definition patchVttWithTimestampMap (vttPath : string) : M () :=
  try_catch
    (content <~ readFile env vttPath ;;
     writeFile env vttPath (JS.join nl (patchedLines content)))
    (λ err, console_error "[Subtitle Timestamp Patch Error]" (Some err)).

(** The [exit] handler of a subtitle process. *)
Definition onSubtitleExit
    (outputDir : string) (subtitle : Subtitle.t) (code : Z) : M () :=
  console_log ("[FFmpeg] Subtitle process exited with code "
               +:+ JS.toString code) ;;;
  if code =? 0 then
    console_log ("Success generating subtitle: " +:+ Subtitle.title subtitle
                 +:+ ", " +:+ Subtitle.language subtitle) ;;;
    let vttPath :=
      JS.path_join [outputDir;
                    "subtitles_" +:+ JS.toString (Subtitle.index subtitle)
                    +:+ ".vtt"] in
    patchVttWithTimestampMap vttPath
  else ret ().

(** [file] is [torrent.files[Number(fileIdx)]], which may be undefined;
    reading a property of it then throws. *)
Definition getFileCodecInfoFromStream (file : option TorrentFile.t)
  : M CodecInfo :=
  yield env ;;;
  match file with
  | None => throw TypeError
  | Some f =>
      match ffprobe f with
      | None => throw ProbeFailure
      | Some metadata => ret (codecInfoOfMetadata metadata)
      end
  end.

Definition outputDirOf (data : PlayParams) : string :=
  JS.path_join [ADDON_DIR +:+ "/hls"; infoHash data;
                JS.toString (fileIdx data)].

(** [play], lines 104-118: the torrent of the request. *)
Definition resolveTorrent (data : PlayParams) : M Torrent :=
  t <~ await (inr (getTorrent (infoHash data))) ;;
  match t with
  | Some torrent => ret torrent
  | None =>
      torrentUrl <~ await (inr (getTorrentUrlBySourceId
                                  (sourceId data) (sourceName data))) ;;
      match torrentUrl with
      | None => throw (HTTPException NOT_FOUND "Torrent not found")
      | Some url =>
          torrentFilePath <~ await (downloadTorrentFile url) ;;
          await (addTorrent torrentFilePath)
      end
  end.

(** [play], lines 131-139: the first request of a session creates the
    directory, probes, plans the playlists and starts the encoders. *)
Definition prepareSession (outputDir : string) (file : option TorrentFile.t)
  : M () :=
  λ w,
    if negb (existsSync outputDir w) then
      (mkdirSync outputDir ;;;
       codecInfo <~ getFileCodecInfoFromStream file ;;
       generatePreGeneratedM3U8Audio outputDir codecInfo ;;;
       generatePreGeneratedM3U8Subtitle outputDir codecInfo ;;;
       generatePreGeneratedM3U8Video outputDir codecInfo ;;;
       generatePreGeneratedM3U8Master outputDir codecInfo ;;;
       generateHLS outputDir EmptyString codecInfo) w
    else (Ok (), w).

(** [play], lines 141-158: wait for the master playlist, then for the
    fifth segment, then answer with the master playlist. *)
Definition serveMaster (outputDir : string) (fuel : nat) : M Response :=
  let masterPath := JS.path_join [outputDir; "master.m3u8"] in
  wait_until_exists env masterPath fuel ;;;
  wait_until_exists env (JS.path_join [outputDir; "segment_004.ts"]) fuel ;;;
  m3u8File <~ readFile env masterPath ;;
  ret (mkResponse 200
         [ ("Content-Type", "application/vnd.apple.mpegurl") ]
         (BodyText m3u8File)).

(** What [play] does before it starts waiting, for a [GET] request in
    [hls] mode. *)
Definition enterSession (data : PlayParams) : M () :=
  torrent <~ resolveTorrent data ;;
  prepareSession (outputDirOf data)
    (at_index (torrent_files torrent) (fileIdx data)).

(** [play], lines 160-187: the original file, by byte range. *)
Definition serveRange (req : Request) (file : option TorrentFile.t)
  : M Response :=
  match file with
  | None => throw TypeError
  | Some f =>
      let fileType :=
        or_default (mime_getType (TorrentFile.path f))
          "application/octet-stream" in
      if String.eqb (method req) "HEAD" then
        ret (mkResponse 200
               [ ("Content-Length", JS.toString (TorrentFile.length f));
                 ("Content-Type", fileType) ]
               BodyNull)
      else
        match parseRangeHeader (header_range req) (TorrentFile.length f)
        with
        | None =>
            console_error
              ("Invalid range header: "
               +:+ default "undefined" (header_range req)) None ;;;
            ret (mkResponse 416
                   [ ("Content-Range",
                      "bytes */" +:+ JS.toString (TorrentFile.length f)) ]
                   BodyNull)
        | Some (start, end_) =>
            console_log ("Range: " +:+ JS.toString start +:+ "-"
                         +:+ JS.toString end_) ;;;
            ret (mkResponse 206
                   [ ("Content-Range",
                      "bytes " +:+ JS.toString start +:+ "-"
                      +:+ JS.toString end_ +:+ "/"
                      +:+ JS.toString (TorrentFile.length f));
                     ("Content-Length", JS.toString (end_ - start + 1));
                     ("Content-Type", fileType);
                     ("Accept-Ranges", "bytes") ]
                   (BodyStream f start end_))
        end
  end.

Definition play (req : Request) (params : Params) (fuel : nat)
  : M Response :=
  match playSchema_safeParse params with
  | inl message => throw (HTTPException BAD_REQUEST message)
  | inr data =>
    torrent <~ resolveTorrent data ;;
    let file := at_index (torrent_files torrent) (fileIdx data) in
    if String.eqb (type data) "hls" then
      if String.eqb (method req) "HEAD" then
        match file with
        | None => throw TypeError
        | Some f =>
            ret (mkResponse 200
                   [ ("Content-Length", JS.toString (TorrentFile.length f));
                     ("Content-Type", "application/vnd.apple.mpegurl") ]
                   BodyNull)
        end
      else
        let outputDir := outputDirOf data in
        prepareSession outputDir file ;;;
        serveMaster outputDir fuel
    else serveRange req file
  end.

(** The request reaches the file [f]: its parameters are accepted, its
    torrent is found or added, leaving the world [w1], and the file
    index is in range. *)
Definition reaches (params : Params) (data : PlayParams)
    (f : TorrentFile.t) (w w1 : World) : Prop :=
  playSchema_safeParse params = inr data
  ∧ ∃ torrent, resolveTorrent data w = (Ok torrent, w1)
               ∧ at_index (torrent_files torrent) (fileIdx data) = Some f.

(** *** [getStreamsForMedia] *)

Variables User TorrentDetails Stream : Type.

Record StreamQuery := mkStreamQuery
  { q_imdbId : string; q_type : string; q_episode : option Z;
    q_season : option Z; q_deviceToken : string }.

(** The argument of [convertTorrentToStream]. *)
Record ConvertArgs := mkConvertArgs
  { c_torrent : TorrentDetails; c_isRecommended : bool;
    c_deviceToken : string; c_season : option Z; c_episode : option Z;
    c_preferredLanguage : string; c_type : string }.

Variable streamQuerySchema_safeParse : Params → string + StreamQuery.
Variable getUserByDeviceTokenOrThrow : string → Error + User.
Variable getTorrentsForImdbId :
  string → string → option Z → option Z → Error + list TorrentDetails.
Variable orderTorrents :
  list TorrentDetails → option Z → option Z → User →
  Error + list TorrentDetails.
Variable preferredLanguage : User → string.
Variable convertTorrentToStream : ConvertArgs → Stream.

Definition re_AndroidTV : Regex.regex :=
  Regex.Cat (Regex.lit "Android")
    (Regex.Cat (Regex.Star Regex.dot) (Regex.lit "TV")).
Definition re_GoogleTV : Regex.regex :=
  Regex.Cat (Regex.lit "Google") (Regex.Cat Regex.space (Regex.lit "TV")).
Definition re_CrKey : Regex.regex := Regex.lit "CrKey".
Definition re_Android : Regex.regex := Regex.lit "Android".

(** The value of [streamType] after the [if]. *)
Definition streamTypeFor (userAgent : option string) : string :=
  match userAgent with
  | None => "hls"
  | Some ua =>
      if Regex.test re_AndroidTV ua
         || Regex.test re_GoogleTV ua
         || Regex.test re_CrKey ua
         || Regex.test re_Android ua
      then "hls" else "stream"
  end.

(** The arguments [convertTorrentToStream] is called with, in order. *)
Definition convertCalls (data : StreamQuery) (user : User)
    (streamType : string) (orderedTorrents : list TorrentDetails)
  : list ConvertArgs :=
  imap (λ i torrent,
          mkConvertArgs torrent (bool_decide (i = 0%nat))
            (q_deviceToken data) (q_season data) (q_episode data)
            (preferredLanguage user) streamType)
    orderedTorrents.

(** The response is [c.json({ streams })]; its [streams] is returned. *)
Definition getStreamsForMedia (req : Request) (params : Params)
  : M (list Stream) :=
  match streamQuerySchema_safeParse params with
  | inl message => throw (HTTPException BAD_REQUEST message)
  | inr data =>
      user <~ await (getUserByDeviceTokenOrThrow (q_deviceToken data)) ;;
      torrents <~ await (getTorrentsForImdbId (q_imdbId data) (q_type data)
                           (q_season data) (q_episode data)) ;;
      orderedTorrents <~ await (orderTorrents torrents (q_season data)
                                  (q_episode data) user) ;;
      let userAgent := header_userAgent req in
      let streamType := streamTypeFor userAgent in
      let streams :=
        convertTorrentToStream
          <$> convertCalls data user streamType orderedTorrents in
      ret streams
  end.

End StreamController.

(** ** Definitions used to state the properties *)

(** The segment entries of a media playlist: the line that follows each
    [#EXTINF] line. *)
Fixpoint segmentEntries (lines : list string) : list string :=
  match lines with
  | [] => []
  | a :: r =>
      if JS.startsWith a "#EXTINF:" then
        match r with
        | [] => []
        | b :: r' => b :: segmentEntries r'
        end
      else segmentEntries r
  end.

(** The lines of a text file. *)
Definition linesOf (content : string) : list string :=
  JS.split newline content.

(** The text [content] is a media playlist with the segments [names]:
    some lines that are no segment tags, then for each segment one
    [#EXTINF] line followed by the line of its file name, then the
    end-of-list marker. *)
Definition mediaPlaylistOf (content : string) (names : list string) : Prop :=
  ∃ header,
    Forall (λ l, JS.startsWith l "#EXTINF" = false) header
    ∧ linesOf content
      = header
        ++ concat ((λ name, ["#EXTINF:10,"; name]) <$> names)
        ++ ["#EXT-X-ENDLIST"].

(** Every character of [s] satisfies [P]. *)
Fixpoint all_chars (P : ascii → bool) (s : string) : bool :=
  match s with
  | EmptyString => true
  | String a r => P a && all_chars P r
  end.

Definition not_char (c : ascii) : ascii → bool := λ a, negb (Ascii.eqb a c).

Definition no_newline (s : string) : bool :=
  all_chars (λ a, negb (Ascii.eqb a newline)) s.

Definition is_digit_or_minus (a : ascii) : bool :=
  match Ascii.is_nat a with Some _ => true | None => Ascii.eqb a "-" end.

Fixpoint digits_value (acc : Z) (s : string) : option Z :=
  match s with
  | EmptyString => Some acc
  | String a r =>
      match Ascii.is_nat a with
      | Some d => digits_value (10 * acc + Z.of_nat d) r
      | None => None
      end
  end.

Definition parseDecimal (s : string) : option Z :=
  if String.eqb s EmptyString then None else digits_value 0 s.

(** Modelled from the spec: [parseRangeHeader] of
    [utils/parse-range-header], which is not among the sources.  A missing
    header, or one that is not a single range [bytes=start-end], yields
    nothing, and so does a range with [start > end] or [start >= length];
    otherwise the span named by the header is returned. *)
Definition parseRangeHeader_spec (header : option string) (length : Z)
  : option (Z * Z) :=
  match header with
  | None => None
  | Some h =>
      if String.prefix "bytes=" h then
        match JS.split "-" (String.substring 6 (String.length h - 6) h) with
        | [a; b] =>
            match parseDecimal a, parseDecimal b with
            | Some start, Some end_ =>
                if (end_ <? start) || (length <=? start) then None
                else Some (start, end_)
            | _, _ => None
            end
        | _ => None
        end
      else None
  end.

(** *** Sample inputs *)

(** A world whose only file is [subtitles_0.vtt], in which every path can
    be written. *)
Definition vttPath0 : string := "out/subtitles_0.vtt".
Definition vttWorld (content : string) : World :=
  mkWorld {[ vttPath0 := content ]} ∅ (λ _, true) [] [] 0.

Definition vttWithHeader : string :=
  "WEBVTT" +:+ nl +:+ nl +:+ "00:01.000 --> 00:02.000" +:+ nl +:+ "Hello".
Definition vttWithoutHeader : string :=
  "00:01.000 --> 00:02.000" +:+ nl +:+ "Hello".

(** Collaborators of [getStreamsForMedia] for a catalogue of two torrents:
    every token is a user, the order is kept, and a stream is the argument
    it was converted from. *)
Definition sampleQuery : StreamQuery :=
  mkStreamQuery "tt0111161" "movie" None None "device-token".
Definition sampleTorrents : list string := ["first"; "second"].
Definition sampleGetStreams (req : Request) : M (list (ConvertArgs string)) :=
  getStreamsForMedia idle 400 () () string (ConvertArgs string)
    (λ _, inr sampleQuery) (λ _, inr ()) (λ _ _ _ _, inr sampleTorrents)
    (λ t _ _ _, inr t) (λ _, "en") (λ c, c) req ().
Definition androidRequest : Request :=
  mkRequest "GET" None (Some "Mozilla/5.0 (Linux; Android 12; Pixel 6)").
Definition emptyWorld : World := mkWorld ∅ ∅ (λ _, true) [] [] 0.

(** Collaborators of [play] around one torrent with one file of 1000
    bytes: the parameters are taken as given, the store knows the torrent,
    and ranges are parsed as the design document describes. *)
Definition sampleFile : TorrentFile.t := TorrentFile.mk "movie.mkv" 1000.
Definition samplePlay (env : nat → World → World)
    (ffprobe : TorrentFile.t → option Metadata)
  : Request → PlayParams → nat → M Response :=
  play env "/data" 400 404 (λ _, Some "video/x-matroska") (λ _, "3600")
    ffprobe PlayParams inr (λ _, Some (mkTorrent [sampleFile]))
    (λ _ _, None) (λ _, inl TypeError) (λ _, inl TypeError)
    parseRangeHeader_spec.
Definition streamParams : PlayParams :=
  mkPlayParams "ncore" "1234" "abcdef" 0 "stream".
Definition hlsParams : PlayParams :=
  mkPlayParams "ncore" "1234" "abcdef" 0 "hls".
Definition rangeRequest (range : option string) : Request :=
  mkRequest "GET" range None.

(** A probe result of 25 seconds with two audio streams. *)
Definition sampleCodecInfo : CodecInfo :=
  mkCodecInfo (Some "h264") (Some "yuv420p") []
    [ Audio.mk 0 "1" "hun" true "aac"; Audio.mk 1 "2" "eng" false "ac3" ]
    (25 # 1)%Q.

(** A session whose directory exists already, and encoders that deliver
    the master playlist at the second suspension and the fifth segment at
    the fourth. *)
Definition sampleDir : string := "/data/hls/abcdef/0".
Definition addFile (p c : string) (w : World) : World :=
  mkWorld (<[p := c]> (files w)) (dirs w) (writable w) (console w)
    (spawned w) (clock w).
Definition startedWorld : World :=
  mkWorld ∅ {[ sampleDir ]} (λ _, true) [] [] 0.
Definition encoderEnv : nat → World → World := λ n w,
  if (n =? 1)%nat then
    addFile (JS.path_join [sampleDir; "master.m3u8"]) "#EXTM3U" w
  else if (n =? 3)%nat then
    addFile (JS.path_join [sampleDir; "segment_004.ts"]) "G" w
  else w.

(** The letters of a string in lower case. *)
Fixpoint lowerString (s : string) : string :=
  match s with
  | EmptyString => EmptyString
  | String a r => String (Regex.lower a) (lowerString r)
  end.

(** What a probe may report: one video stream, two audio streams of which
    the second has no language and no codec name, two subtitle streams of
    which the second has no tags, and no duration. *)
Definition sampleMetadata : Metadata :=
  mkMetadata None
    [ mkProbeStream (Some "video") (Some "h264") (Some "yuv420p") None;
      mkProbeStream (Some "audio") (Some "aac") None
        (Some (mkTags None (Some "hun")));
      mkProbeStream (Some "subtitle") (Some "subrip") None
        (Some (mkTags (Some "English [FORCED]") (Some "eng")));
      mkProbeStream (Some "audio") None None
        (Some (mkTags (Some "Commentary") None));
      mkProbeStream (Some "subtitle") (Some "subrip") None None ].

(** ** Strings *)

Lemma str_app_cons a s t : String a s +:+ t = String a (s +:+ t).
Proof. reflexivity. Qed.

Lemma str_app_nil_l s : EmptyString +:+ s = s.
Proof. reflexivity. Qed.

Lemma str_app_nil_r s : s +:+ EmptyString = s.
Proof. induction s as [|a s IH]; [done|]. by rewrite str_app_cons, IH. Qed.

Lemma str_app_assoc s t u : (s +:+ t) +:+ u = s +:+ (t +:+ u).
Proof. induction s as [|a s IH]; [done|]. by rewrite !str_app_cons, IH. Qed.

Lemma str_length_app s t :
  String.length (s +:+ t) = (String.length s + String.length t)%nat.
Proof. induction s as [|a s IH]; [done|]. rewrite str_app_cons. simpl. by rewrite IH. Qed.

Lemma str_app_inj_r s1 s2 t : s1 +:+ t = s2 +:+ t → s1 = s2.
Proof.
  revert s2. induction s1 as [|a s1 IH]; intros [|b s2] H.
  - done.
  - apply (f_equal String.length) in H.
    rewrite str_app_nil_l, str_app_cons in H. simpl in H. rewrite str_length_app in H. lia.
  - apply (f_equal String.length) in H.
    rewrite str_app_nil_l, str_app_cons in H. simpl in H. rewrite str_length_app in H. lia.
  - rewrite !str_app_cons in H. injection H as -> H. f_equal. by apply IH.
Qed.

Lemma all_chars_app P s t :
  all_chars P (s +:+ t) = all_chars P s && all_chars P t.
Proof.
  induction s as [|a s IH]; [done|].
  rewrite str_app_cons. simpl. rewrite IH. by rewrite andb_assoc.
Qed.

Lemma all_chars_impl (P Q : ascii → bool) s :
  (∀ a, P a = true → Q a = true) → all_chars P s = true → all_chars Q s = true.
Proof.
  intros HPQ. induction s as [|a s IH]; [done|]. simpl.
  intros [Ha Hs]%andb_prop. rewrite (HPQ _ Ha). simpl. by apply IH.
Qed.

(** *** Splitting into lines and joining back *)

Lemma split_nonempty c s : JS.split c s ≠ [].
Proof.
  destruct s as [|a s]; simpl; [done|].
  destruct (Ascii.eqb a c); [done|]. by destruct (JS.split c s).
Qed.

Lemma join_cons sep x y l :
  JS.join sep (x :: y :: l) = x +:+ sep +:+ JS.join sep (y :: l).
Proof. reflexivity. Qed.

Lemma join_split s : JS.join nl (JS.split newline s) = s.
Proof.
  induction s as [|a s IH]; [done|]. simpl.
  destruct (Ascii.eqb_spec a newline) as [->|Hne].
  - pose proof (split_nonempty newline s) as Hs.
    destruct (JS.split newline s) as [|h t] eqn:E; [done|].
    rewrite join_cons, IH. done.
  - destruct (JS.split newline s) as [|h t] eqn:E.
    { by destruct (split_nonempty newline s). }
    destruct t as [|h' t].
    + simpl in *. by rewrite IH.
    + rewrite join_cons in *. rewrite str_app_cons. by rewrite IH.
Qed.

Lemma split_no_newline s : no_newline s = true → JS.split newline s = [s].
Proof.
  induction s as [|a s IH]; [done|]. unfold no_newline in *. simpl.
  intros [Ha Hs]%andb_prop. apply negb_true_iff in Ha. rewrite Ha.
  by rewrite (IH Hs).
Qed.

Lemma split_app_nl s t :
  no_newline s = true →
  JS.split newline (s +:+ nl +:+ t) = s :: JS.split newline t.
Proof.
  induction s as [|a s IH]; intros Hs.
  - rewrite str_app_nil_l. unfold nl. rewrite str_app_cons, str_app_nil_l.
    cbn [JS.split]. by rewrite Ascii.eqb_refl.
  - unfold no_newline in *. cbn [all_chars] in Hs.
    apply andb_prop in Hs as [Ha Hs].
    apply negb_true_iff in Ha. rewrite str_app_cons. cbn [JS.split]. rewrite Ha.
    by rewrite (IH Hs).
Qed.

Lemma split_join l :
  l ≠ [] → Forall (λ s, no_newline s = true) l →
  JS.split newline (JS.join nl l) = l.
Proof.
  induction l as [|x l IH]; [done|]. intros _ Hall.
  apply Forall_cons in Hall as [Hx Hl].
  destruct l as [|y l].
  - simpl. by apply split_no_newline.
  - rewrite join_cons, split_app_nl by done. f_equal. by apply IH.
Qed.

Lemma split_lines_no_newline s :
  Forall (λ l, no_newline l = true) (JS.split newline s).
Proof.
  induction s as [|a s IH]; simpl.
  - by repeat constructor.
  - destruct (Ascii.eqb_spec a newline) as [->|Hne].
    + by constructor.
    + apply Ascii.eqb_neq in Hne.
      destruct (JS.split newline s) as [|h t].
      * repeat constructor. unfold no_newline. cbn [all_chars]. by rewrite Hne.
      * apply Forall_cons in IH as [Hh Ht]. constructor; [|done].
        unfold no_newline in *. cbn [all_chars]. by rewrite Hh, Hne.
Qed.

(** *** [findIndex] and [splice] *)

Lemma findIndex_ge {A} (p : A → bool) l : -1 <= JS.findIndex p l.
Proof.
  induction l as [|x l IH]; simpl; [lia|].
  destruct (p x); [lia|]. destruct (Z.eqb_spec (JS.findIndex p l) (-1)); lia.
Qed.

Lemma findIndex_absent {A} (p : A → bool) l :
  Forall (λ x, p x = false) l → JS.findIndex p l = -1.
Proof.
  induction 1 as [|x l Hx _ IH]; simpl; [done|]. by rewrite Hx, IH.
Qed.

Lemma findIndex_first {A} (p : A → bool) pre h post :
  Forall (λ x, p x = false) pre → p h = true →
  JS.findIndex p (pre ++ h :: post) = Z.of_nat (length pre).
Proof.
  intros Hpre Hh. induction Hpre as [|x l Hx _ IH]; simpl.
  - by rewrite Hh.
  - rewrite Hx, IH. destruct (Z.eqb_spec (Z.of_nat (length l)) (-1)); lia.
Qed.

Lemma first_header {A} (p : A → bool) l :
  Exists (λ x, p x = true) l →
  ∃ pre h post, l = pre ++ h :: post ∧
                Forall (λ x, p x = false) pre ∧ p h = true.
Proof.
  induction l as [|x l IH]; intros H; [by apply Exists_nil in H|].
  destruct (p x) eqn:Hx.
  - exists [], x, l. by repeat split.
  - apply Exists_cons in H as [H|H]; [congruence|].
    destruct (IH H) as (pre & h & post & -> & Hpre & Hh).
    exists (x :: pre), h, post. repeat split; [|done]. by constructor.
Qed.

Lemma splice_insert_after {A} (pre : list A) h post item :
  JS.splice_insert (Z.of_nat (length pre) + 1) item (pre ++ h :: post)
  = pre ++ h :: item :: post.
Proof.
  unfold JS.splice_insert.
  rewrite length_app. cbn [length].
  destruct (Z.ltb_spec (Z.of_nat (length pre) + 1) 0); [lia|].
  replace (Z.to_nat (Z.min _ _)) with (length (pre ++ [h])).
  - rewrite (cons_middle h pre post), (assoc_L (++)).
    rewrite take_app_length, drop_app_length. by rewrite <- (assoc_L (++)).
  - rewrite length_app. simpl. lia.
Qed.

(** *** The subtitle patch on the lines of a file *)

Lemma patchedLines_header content pre h post :
  linesOf content = pre ++ h :: post →
  Forall (λ l, isHeader l = false) pre → isHeader h = true →
  patchedLines content = pre ++ h :: timestampMap :: post.
Proof.
  unfold linesOf, patchedLines. intros -> Hpre Hh.
  rewrite (findIndex_first _ _ _ _ Hpre Hh).
  destruct (Z.eqb_spec (Z.of_nat (length pre)) (-1)); [lia|]. simpl.
  apply splice_insert_after.
Qed.

Lemma patchedLines_no_header content :
  Forall (λ l, isHeader l = false) (linesOf content) →
  patchedLines content = linesOf content.
Proof.
  unfold linesOf, patchedLines. intros H. by rewrite (findIndex_absent _ _ H).
Qed.

Lemma patchedLines_no_newline content :
  Forall (λ l, no_newline l = true) (patchedLines content).
Proof.
  pose proof (split_lines_no_newline content) as Hall.
  unfold patchedLines.
  destruct (negb _); [|done].
  unfold JS.splice_insert. apply Forall_app. split.
  - by apply Forall_take.
  - constructor; [done|]. by apply Forall_drop.
Qed.

Lemma linesOf_patched content :
  linesOf (JS.join nl (patchedLines content)) = patchedLines content.
Proof.
  unfold linesOf. apply split_join; [|apply patchedLines_no_newline].
  unfold patchedLines. destruct (negb _).
  - unfold JS.splice_insert. by destruct (take _ _).
  - apply split_nonempty.
Qed.

(** *** Running the patch *)

Lemma patch_never_throws env p w :
  ∃ w', patchVttWithTimestampMap env p w = (Ok (), w').
Proof.
  unfold patchVttWithTimestampMap, try_catch, readFile, writeFile, yield,
    console_error.
  unfold bind. simpl.
  destruct (files _ !! p); simpl; [|eauto].
  destruct (writable _ p); simpl; eauto.
Qed.

Lemma patch_idle_run p w content :
  files w !! p = Some content → writable w p = true →
  patchVttWithTimestampMap idle p w
  = (Ok (),
     mkWorld (<[p := JS.join nl (patchedLines content)]> (files w))
       (dirs w) (writable w) (console w) (spawned w) (S (S (clock w)))).
Proof.
  intros Hf Hw.
  unfold patchVttWithTimestampMap, try_catch, readFile, writeFile, yield,
    idle.
  unfold bind. simpl. rewrite Hf. simpl. by rewrite Hw.
Qed.

(** ** Subtitle post-processing *)

(** C5, as amended.  On a subtitle file that has a line starting with
    [WEBVTT], one run of the patch inserts one [X-TIMESTAMP-MAP] line
    directly after the first such line and changes no other line; a
    second run inserts a second such line at the same place.  (The
    environment is idle while the patch runs and the file can be
    written.) *)
Theorem patch_inserts_directive_on_every_run p w content :
  files w !! p = Some content →
  writable w p = true →
  Exists (λ l, isHeader l = true) (linesOf content) →
  ∃ pre h post w1 w2 c1 c2,
    linesOf content = pre ++ h :: post
    ∧ Forall (λ l, isHeader l = false) pre ∧ isHeader h = true
    ∧ patchVttWithTimestampMap idle p w = (Ok (), w1)
    ∧ files w1 !! p = Some c1
    ∧ linesOf c1 = pre ++ h :: timestampMap :: post
    ∧ patchVttWithTimestampMap idle p w1 = (Ok (), w2)
    ∧ files w2 !! p = Some c2
    ∧ linesOf c2 = pre ++ h :: timestampMap :: timestampMap :: post.
Proof.
  intros Hf Hw Hex.
  destruct (first_header _ _ Hex) as (pre & h & post & Hl & Hpre & Hh).
  pose proof (patchedLines_header _ _ _ _ Hl Hpre Hh) as Hp1.
  set (c1 := JS.join nl (patchedLines content)).
  assert (linesOf c1 = pre ++ h :: timestampMap :: post) as Hl1.
  { unfold c1. by rewrite linesOf_patched. }
  pose proof (patchedLines_header c1 pre h (timestampMap :: post) Hl1 Hpre Hh)
    as Hp2.
  set (w1 := mkWorld (<[p := c1]> (files w)) (dirs w) (writable w)
               (console w) (spawned w) (S (S (clock w)))).
  assert (files w1 !! p = Some c1) as Hf1 by apply lookup_insert_eq.
  eexists pre, h, post, w1, _, c1, (JS.join nl (patchedLines c1)).
  split_and!; try done.
  - by apply patch_idle_run.
  - by apply (patch_idle_run p w1 c1).
  - apply lookup_insert_eq.
  - by rewrite linesOf_patched.
Qed.

Lemma patch_inserts_directive_on_every_run_witness :
  ∃ pre h post w1 w2 c1 c2,
    linesOf vttWithHeader = pre ++ h :: post
    ∧ Forall (λ l, isHeader l = false) pre ∧ isHeader h = true
    ∧ patchVttWithTimestampMap idle vttPath0 (vttWorld vttWithHeader)
      = (Ok (), w1)
    ∧ files w1 !! vttPath0 = Some c1
    ∧ linesOf c1 = pre ++ h :: timestampMap :: post
    ∧ patchVttWithTimestampMap idle vttPath0 w1 = (Ok (), w2)
    ∧ files w2 !! vttPath0 = Some c2
    ∧ linesOf c2 = pre ++ h :: timestampMap :: timestampMap :: post.
Proof.
  apply (patch_inserts_directive_on_every_run vttPath0
           (vttWorld vttWithHeader) vttWithHeader).
  - reflexivity.
  - reflexivity.
  - apply Exists_cons_hd. reflexivity.
Defined.

(** C5 as stated fails: on a file with a header, the content after two
    runs of the patch differs from the content after one run. *)
Lemma patch_twice_differs_from_once :
  let w1 := (patchVttWithTimestampMap idle vttPath0
               (vttWorld vttWithHeader)).2 in
  let w2 := (patchVttWithTimestampMap idle vttPath0 w1).2 in
  Exists (λ l, isHeader l = true) (linesOf vttWithHeader)
  ∧ files w2 !! vttPath0 ≠ files w1 !! vttPath0.
Proof.
  split.
  - apply Exists_cons_hd. reflexivity.
  - vm_compute. discriminate.
Qed.

(** C8, as amended.  On a subtitle file none of whose lines starts with
    [WEBVTT], the patch does not raise an error to its caller, whatever
    the environment does, and (with an idle environment and a file that
    can be written) it leaves the content of every file as it was and
    writes nothing to the console. *)
Theorem patch_without_header_is_silent p w content :
  files w !! p = Some content →
  writable w p = true →
  Forall (λ l, isHeader l = false) (linesOf content) →
  (∀ env, ∃ w', patchVttWithTimestampMap env p w = (Ok (), w'))
  ∧ ∃ w', patchVttWithTimestampMap idle p w = (Ok (), w')
          ∧ files w' = files w ∧ console w' = console w.
Proof.
  intros Hf Hw Hno. split.
  - intros env. apply patch_never_throws.
  - eexists. split; [by apply patch_idle_run|]. simpl. split; [|done].
    rewrite (patchedLines_no_header _ Hno). unfold linesOf.
    rewrite join_split. by apply insert_id.
Qed.

Lemma patch_without_header_is_silent_witness :
  (∀ env, ∃ w', patchVttWithTimestampMap env vttPath0
                  (vttWorld vttWithoutHeader) = (Ok (), w'))
  ∧ ∃ w', patchVttWithTimestampMap idle vttPath0 (vttWorld vttWithoutHeader)
          = (Ok (), w')
          ∧ files w' = files (vttWorld vttWithoutHeader)
          ∧ console w' = console (vttWorld vttWithoutHeader).
Proof.
  apply (patch_without_header_is_silent vttPath0
           (vttWorld vttWithoutHeader) vttWithoutHeader).
  - reflexivity.
  - reflexivity.
  - repeat constructor.
Defined.

(** C8 as stated fails: on a file without a header the patch returns
    normally and the console is left empty, so no failure is logged. *)
Lemma patch_without_header_logs_nothing :
  Forall (λ l, isHeader l = false) (linesOf vttWithoutHeader)
  ∧ ∃ w', patchVttWithTimestampMap idle vttPath0 (vttWorld vttWithoutHeader)
          = (Ok (), w')
          ∧ console w' = [].
Proof.
  split; [repeat constructor|].
  eexists. split; [by apply patch_idle_run|]. reflexivity.
Qed.

(** ** Regular expressions: the search computes what it should *)

Lemma str_app_eq_nil s1 s2 :
  s1 +:+ s2 = EmptyString → s1 = EmptyString ∧ s2 = EmptyString.
Proof. destruct s1; [done|]. by rewrite str_app_cons. Qed.

Lemma str_app_eq_cons s1 s2 a s :
  s1 +:+ s2 = String a s →
  (s1 = EmptyString ∧ s2 = String a s)
  ∨ ∃ s1', s1 = String a s1' ∧ s = s1' +:+ s2.
Proof.
  destruct s1 as [|b s1]; [by left|].
  rewrite str_app_cons. intros [= -> <-]. right. by exists s1.
Qed.

Lemma nullable_Matches r :
  Regex.nullable r = true ↔ Regex.Matches r EmptyString.
Proof.
  split.
  - induction r; simpl; intros H; try done.
    + constructor.
    + apply andb_prop in H as [H1 H2].
      change EmptyString with (EmptyString +:+ EmptyString).
      constructor; auto.
    + apply orb_prop in H as [H|H];
        [apply Regex.MAltL | apply Regex.MAltR]; auto.
    + constructor.
  - intros H. remember EmptyString as s eqn:Hs.
    induction H; simpl; try done.
    + apply str_app_eq_nil in Hs as [-> ->]. by rewrite IHMatches1, IHMatches2.
    + by rewrite IHMatches.
    + rewrite IHMatches by done. apply orb_true_r.
Qed.

Lemma deriv_Matches_1 a r s :
  Regex.Matches (Regex.deriv a r) s → Regex.Matches r (String a s).
Proof.
  revert s. induction r as [| |p|r1 IH1 r2 IH2|r1 IH1 r2 IH2|r IH];
    simpl; intros s H.
  - inversion H.
  - inversion H.
  - destruct (p a) eqn:Hp; inversion H; subst. by constructor.
  - assert (∀ t, Regex.Matches (Regex.Cat (Regex.deriv a r1) r2) t →
                 Regex.Matches (Regex.Cat r1 r2) (String a t)) as Hcat.
    { intros t Ht. inversion Ht; subst. rewrite <- str_app_cons.
      constructor; auto. }
    destruct (Regex.nullable r1) eqn:Hn; [|by apply Hcat].
    inversion H; subst; [by apply Hcat|].
    change (String a s) with (EmptyString +:+ String a s).
    constructor; [by apply nullable_Matches | auto].
  - inversion H; subst; [apply Regex.MAltL | apply Regex.MAltR]; auto.
  - inversion H; subst. rewrite <- str_app_cons. constructor; auto.
Qed.

Lemma deriv_Matches_2 r t :
  Regex.Matches r t → ∀ a s, t = String a s →
  Regex.Matches (Regex.deriv a r) s.
Proof.
  induction 1 as [|p b Hp|r1 r2 s1 s2 H1 IH1 H2 IH2|r1 r2 s' H IH
                 |r1 r2 s' H IH| |r s1 s2 H1 IH1 H2 IH2];
    intros a s Heq; simpl.
  - done.
  - injection Heq as -> <-. rewrite Hp. constructor.
  - apply str_app_eq_cons in Heq as [[-> ->]|(s1' & -> & ->)].
    + apply nullable_Matches in H1 as ->. apply Regex.MAltR. by apply IH2.
    + destruct (Regex.nullable r1).
      * apply Regex.MAltL. constructor; [by apply IH1 | done].
      * constructor; [by apply IH1 | done].
  - apply Regex.MAltL. by apply IH.
  - apply Regex.MAltR. by apply IH.
  - done.
  - apply str_app_eq_cons in Heq as [[-> ->]|(s1' & -> & ->)].
    + by apply IH2.
    + constructor; [by apply IH1 | done].
Qed.

Lemma matches_Matches r s :
  Regex.matches r s = true ↔ Regex.Matches r s.
Proof.
  revert r. induction s as [|a s IH]; intros r; simpl.
  - apply nullable_Matches.
  - rewrite IH. split; [apply deriv_Matches_1|].
    intros H. by eapply deriv_Matches_2.
Qed.

Lemma Matches_any_star s : Regex.Matches (Regex.Star Regex.any) s.
Proof.
  induction s as [|a s IH]; [constructor|].
  change (String a s) with (String a EmptyString +:+ s).
  constructor; [by constructor | done].
Qed.

Lemma test_Found r s : Regex.test r s = true ↔ Regex.Found r s.
Proof.
  unfold Regex.test, Regex.Found. rewrite matches_Matches. split.
  - intros H. inversion H as [| |? ? pre rest _ Hrest| | | |]; subst.
    inversion Hrest as [| |? ? mid post Hmid _| | | |]; subst.
    by exists pre, mid, post.
  - intros (pre & mid & post & -> & Hmid).
    constructor; [apply Matches_any_star|].
    constructor; [done | apply Matches_any_star].
Qed.

(** A literal matches itself only. *)
Lemma lit_Matches p s : Regex.Matches (Regex.lit p) s ↔ s = p.
Proof.
  revert s. induction p as [|a p IH]; intros s; simpl.
  - split; [by inversion 1 | intros ->; constructor].
  - split.
    + intros H. inversion H as [| |? ? s1 s2 H1 H2| | | |]; subst.
      apply IH in H2 as ->. inversion H1; subst.
      rewrite str_app_cons. f_equal.
      match goal with H : (_ =? _)%char = true |- _ =>
        by apply Ascii.eqb_eq in H as -> end.
    + intros ->. change (String a p) with (String a EmptyString +:+ p).
      constructor; [|by apply IH]. constructor. apply Ascii.eqb_refl.
Qed.

Lemma includes_spec s p :
  JS.includes s p = true ↔ ∃ pre post, s = pre +:+ p +:+ post.
Proof.
  assert (∀ s, String.prefix p s = true ↔ ∃ post, s = p +:+ post) as Hpre.
  { clear s. induction p as [|a p IH]; intros s.
    - destruct s; simpl; split; eauto.
    - destruct s as [|b s]; simpl.
      + split; [done|]. intros [post H]. by rewrite str_app_cons in H.
      + destruct (ascii_dec a b) as [->|Hne].
        * rewrite IH. split; intros [post H]; exists post.
          -- by rewrite str_app_cons, H.
          -- rewrite str_app_cons in H. by injection H.
        * split; [done|]. intros [post H]. rewrite str_app_cons in H.
          by injection H as -> _. }
  induction s as [|a s IH]; cbn [JS.includes].
  - rewrite orb_false_r, Hpre. split.
    + intros [post H]. by exists EmptyString, post.
    + intros ([|??] & post & H); [by exists post|by rewrite str_app_cons in H].
  - rewrite orb_true_iff, Hpre, IH. split.
    + intros [[post H]|(pre & post & H)].
      * by exists EmptyString, post.
      * exists (String a pre), post. by rewrite str_app_cons, H.
    + intros ([|b pre] & post & H).
      * left. by exists post.
      * right. rewrite str_app_cons in H. injection H as -> ->.
        by exists pre, post.
Qed.

(** ** The delivery type of the streams *)

Section StreamsForMedia.

Context (env : nat → World → World) (BAD_REQUEST : Z)
  (Params User TorrentDetails Stream : Type)
  (streamQuerySchema_safeParse : Params → string + StreamQuery)
  (getUserByDeviceTokenOrThrow : string → Error + User)
  (getTorrentsForImdbId :
     string → string → option Z → option Z → Error + list TorrentDetails)
  (orderTorrents :
     list TorrentDetails → option Z → option Z → User →
     Error + list TorrentDetails)
  (preferredLanguage : User → string)
  (convertTorrentToStream : ConvertArgs TorrentDetails → Stream).

Lemma streamTypeFor_hls userAgent :
  streamTypeFor userAgent = "hls" ↔
  userAgent = None
  ∨ ∃ ua, userAgent = Some ua
          ∧ (Regex.Found re_AndroidTV ua ∨ Regex.Found re_GoogleTV ua
             ∨ Regex.Found re_CrKey ua ∨ Regex.Found re_Android ua).
Proof.
  unfold streamTypeFor. destruct userAgent as [ua|].
  - split.
    + intros H. right. exists ua. split; [done|].
      rewrite <- !test_Found.
      destruct (Regex.test re_AndroidTV ua), (Regex.test re_GoogleTV ua),
        (Regex.test re_CrKey ua), (Regex.test re_Android ua);
        simpl in H; try done; tauto.
    + intros [?|(ua' & [= <-] & H)]; [done|].
      rewrite <- !test_Found in H.
      destruct (Regex.test re_AndroidTV ua), (Regex.test re_GoogleTV ua),
        (Regex.test re_CrKey ua), (Regex.test re_Android ua);
        simpl; try done; destruct H as [?|[?|[?|?]]]; done.
  - split; [by left | done].
Qed.

Lemma streamTypeFor_cases userAgent :
  streamTypeFor userAgent = "hls" ∨ streamTypeFor userAgent = "stream".
Proof.
  unfold streamTypeFor. destruct userAgent; [|by left].
  destruct (_ || _); [by left | by right].
Qed.

Lemma convertCalls_type (data : StreamQuery) (user : User) streamType
    (torrents : list TorrentDetails) :
  Forall (λ c, c_type _ c = streamType)
    (convertCalls _ _ preferredLanguage data user streamType torrents).
Proof.
  apply Forall_forall. intros c Hc. unfold convertCalls in Hc.
  apply elem_of_lookup_imap in Hc as (i & t & -> & _). done.
Qed.

(** C10.  Whenever [getStreamsForMedia] answers, every stream of the
    answer was converted with the same delivery type, which is [hls]
    exactly when the request has no [User-Agent] header or the header
    contains a match of [Android.*TV], [Google\sTV], [CrKey] or
    [Android], and [stream] otherwise. *)
Theorem streams_typed_by_user_agent req params w streams w' :
  getStreamsForMedia env BAD_REQUEST Params User TorrentDetails Stream
    streamQuerySchema_safeParse getUserByDeviceTokenOrThrow
    getTorrentsForImdbId orderTorrents preferredLanguage
    convertTorrentToStream req params w = (Ok streams, w') →
  let streamType := streamTypeFor (header_userAgent req) in
  (∃ calls : list (ConvertArgs TorrentDetails),
     streams = convertTorrentToStream <$> calls
     ∧ Forall (λ c, c_type _ c = streamType) calls)
  ∧ (streamType = "hls" ↔
     header_userAgent req = None
     ∨ ∃ ua, header_userAgent req = Some ua
             ∧ (Regex.Found re_AndroidTV ua ∨ Regex.Found re_GoogleTV ua
                ∨ Regex.Found re_CrKey ua ∨ Regex.Found re_Android ua))
  ∧ (streamType ≠ "hls" → streamType = "stream").
Proof.
  intros Hrun streamType. split; [|split].
  - unfold getStreamsForMedia in Hrun.
    destruct (streamQuerySchema_safeParse params) as [msg|data];
      [done|].
    unfold await, yield, throw, ret in Hrun. unfold bind in Hrun.
    simpl in Hrun.
    destruct (getUserByDeviceTokenOrThrow _) as [|user]; [done|].
    simpl in Hrun.
    destruct (getTorrentsForImdbId _ _ _ _) as [|torrents]; [done|].
    simpl in Hrun.
    destruct (orderTorrents _ _ _ _) as [|ordered]; [done|].
    simpl in Hrun. injection Hrun as <- _.
    eexists. split; [reflexivity|]. apply convertCalls_type.
  - apply streamTypeFor_hls.
  - destruct (streamTypeFor_cases (header_userAgent req)); done.
Qed.

End StreamsForMedia.

Lemma streams_typed_by_user_agent_witness :
  ∃ streams w',
    sampleGetStreams androidRequest emptyWorld = (Ok streams, w')
    ∧ let streamType := streamTypeFor (header_userAgent androidRequest) in
      (∃ calls : list (ConvertArgs string),
         streams = (λ c, c) <$> calls
         ∧ Forall (λ c, c_type _ c = streamType) calls)
      ∧ (streamType = "hls" ↔
         header_userAgent androidRequest = None
         ∨ ∃ ua, header_userAgent androidRequest = Some ua
                 ∧ (Regex.Found re_AndroidTV ua ∨ Regex.Found re_GoogleTV ua
                    ∨ Regex.Found re_CrKey ua ∨ Regex.Found re_Android ua))
      ∧ (streamType ≠ "hls" → streamType = "stream").
Proof.
  eexists _, _. split; [reflexivity|].
  eapply (streams_typed_by_user_agent idle 400 () () string
           (ConvertArgs string)
           (λ _, inr sampleQuery) (λ _, inr ())
           (λ _ _ _ _, inr sampleTorrents)
           (λ t _ _ _, inr t) (λ _, "en") (λ c, c)
           androidRequest () emptyWorld).
  reflexivity.
Defined.

(** ** Byte ranges of the original file *)

Section Play.

Context (env : nat → World → World) (ADDON_DIR : string)
  (BAD_REQUEST NOT_FOUND : Z)
  (mime_getType : string → option string)
  (Number_toString : Q → string)
  (ffprobe : TorrentFile.t → option Metadata)
  (Params : Type)
  (playSchema_safeParse : Params → string + PlayParams)
  (getTorrent : string → option Torrent)
  (getTorrentUrlBySourceId : string → string → option string)
  (downloadTorrentFile : string → Error + string)
  (addTorrent : string → Error + Torrent)
  (parseRangeHeader : option string → Z → option (Z * Z)).

Local Abbreviation play' :=
  (play env ADDON_DIR BAD_REQUEST NOT_FOUND mime_getType Number_toString
     ffprobe Params playSchema_safeParse getTorrent getTorrentUrlBySourceId
     downloadTorrentFile addTorrent parseRangeHeader).
Local Abbreviation resolveTorrent' :=
  (resolveTorrent env NOT_FOUND getTorrent getTorrentUrlBySourceId
     downloadTorrentFile addTorrent).
Local Abbreviation reaches' :=
  (reaches env NOT_FOUND Params playSchema_safeParse getTorrent
     getTorrentUrlBySourceId downloadTorrentFile addTorrent).

Lemma play_stream_mode req params data f w w1 fuel :
  reaches' params data f w w1 → type data = "stream" →
  play' req params fuel w = serveRange mime_getType parseRangeHeader req (Some f) w1.
Proof.
  intros (Hp & torrent & Hres & Hf) Ht. unfold play. rewrite Hp.
  unfold bind at 1. rewrite Hres, Hf, Ht. done.
Qed.

(** C6.  A [GET] request in stream mode whose [Range] header parses to
    the span [start, end] of a file of [L] bytes is answered with status
    206, [Content-Range: bytes start-end/L] and
    [Content-Length: end - start + 1], the body being that span of the
    file. *)
Theorem range_request_partial_content
    req params data f w w1 start end_ fuel :
  reaches' params data f w w1 →
  type data = "stream" →
  method req = "GET" →
  parseRangeHeader (header_range req) (TorrentFile.length f)
  = Some (start, end_) →
  ∃ resp w',
    play' req params fuel w = (Ok resp, w')
    ∧ status resp = 206
    ∧ getHeader "Content-Range" resp
      = Some ("bytes " +:+ JS.toString start +:+ "-" +:+ JS.toString end_
              +:+ "/" +:+ JS.toString (TorrentFile.length f))
    ∧ getHeader "Content-Length" resp
      = Some (JS.toString (end_ - start + 1))
    ∧ body resp = BodyStream f start end_.
Proof.
  intros Hreach Ht Hm Hr.
  rewrite (play_stream_mode _ _ _ _ _ _ _ Hreach Ht).
  unfold serveRange. rewrite Hm, Hr. simpl.
  unfold bind, console_log, ret. simpl. eauto 10.
Qed.

(** C7.  A [GET] request in stream mode whose [Range] header is missing
    or does not parse to a span is answered with status 416, no body,
    and [Content-Range: bytes */L] for a file of [L] bytes. *)
Theorem range_request_not_satisfiable req params data f w w1 fuel :
  reaches' params data f w w1 →
  type data = "stream" →
  method req = "GET" →
  parseRangeHeader (header_range req) (TorrentFile.length f) = None →
  ∃ resp w',
    play' req params fuel w = (Ok resp, w')
    ∧ status resp = 416
    ∧ body resp = BodyNull
    ∧ getHeader "Content-Range" resp
      = Some ("bytes */" +:+ JS.toString (TorrentFile.length f)).
Proof.
  intros Hreach Ht Hm Hr.
  rewrite (play_stream_mode _ _ _ _ _ _ _ Hreach Ht).
  unfold serveRange. rewrite Hm, Hr. simpl.
  unfold bind, console_error, ret. simpl. eauto 10.
Qed.

End Play.

(** The range parser of the design document turns down a missing header
    and every range with [start > end] or [start >= length]. *)
Lemma parseRangeHeader_spec_valid header length start end_ :
  parseRangeHeader_spec header length = Some (start, end_) →
  header ≠ None ∧ start <= end_ ∧ start < length.
Proof.
  unfold parseRangeHeader_spec. intros H.
  repeat case_match; simplify_eq.
  split; [done|].
  match goal with
  | H : _ || _ = false |- _ => apply orb_false_elim in H as [? ?]
  end. lia.
Qed.

Lemma sample_reaches env data w :
  fileIdx data = 0 →
  reaches env 404 PlayParams inr (λ _, Some (mkTorrent [sampleFile]))
    (λ _ _, None) (λ _, inl TypeError) (λ _, inl TypeError)
    data data sampleFile w (advance env 1 w).
Proof.
  intros H0. unfold reaches, resolveTorrent, await, yield, ret.
  unfold bind. simpl.
  split; [done|]. eexists. split; [reflexivity|].
  rewrite H0. reflexivity.
Qed.

Lemma range_request_partial_content_witness :
  ∃ resp w',
    samplePlay idle (λ _, None) (rangeRequest (Some "bytes=0-99"))
      streamParams 0 emptyWorld = (Ok resp, w')
    ∧ status resp = 206
    ∧ getHeader "Content-Range" resp = Some "bytes 0-99/1000"
    ∧ getHeader "Content-Length" resp = Some "100"
    ∧ body resp = BodyStream sampleFile 0 99.
Proof.
  apply (range_request_partial_content idle "/data" 400 404
           (λ _, Some "video/x-matroska") (λ _, "3600") (λ _, None)
           PlayParams inr (λ _, Some (mkTorrent [sampleFile]))
           (λ _ _, None) (λ _, inl TypeError) (λ _, inl TypeError)
           parseRangeHeader_spec
           (rangeRequest (Some "bytes=0-99")) streamParams streamParams
           sampleFile emptyWorld (advance idle 1 emptyWorld) 0 99 0%nat).
  - apply sample_reaches. reflexivity.
  - reflexivity.
  - reflexivity.
  - reflexivity.
Defined.

Lemma range_request_not_satisfiable_witness :
  ∃ resp w',
    samplePlay idle (λ _, None) (rangeRequest None)
      streamParams 0 emptyWorld = (Ok resp, w')
    ∧ status resp = 416
    ∧ body resp = BodyNull
    ∧ getHeader "Content-Range" resp = Some "bytes */1000".
Proof.
  apply (range_request_not_satisfiable idle "/data" 400 404
           (λ _, Some "video/x-matroska") (λ _, "3600") (λ _, None)
           PlayParams inr (λ _, Some (mkTorrent [sampleFile]))
           (λ _ _, None) (λ _, inl TypeError) (λ _, inl TypeError)
           parseRangeHeader_spec
           (rangeRequest None) streamParams streamParams
           sampleFile emptyWorld (advance idle 1 emptyWorld) 0%nat).
  - apply sample_reaches. reflexivity.
  - reflexivity.
  - reflexivity.
  - reflexivity.
Defined.

(** ** Decimal numerals *)

Lemma pretty_N_char_digit x : Ascii.is_nat (pretty_N_char x) ≠ None.
Proof. unfold pretty_N_char. by repeat case_match. Qed.

Lemma pretty_N_go_digits x s :
  all_chars is_digit_or_minus s = true →
  all_chars is_digit_or_minus (pretty_N_go x s) = true.
Proof.
  revert s. induction (N.lt_wf_0 x) as [x _ IH]. intros s Hs.
  destruct (decide (x = 0)%N) as [->|Hx].
  - by rewrite pretty_N_go_0.
  - rewrite pretty_N_go_step by lia. apply IH.
    + apply N.div_lt; lia.
    + cbn [all_chars]. rewrite Hs, andb_true_r. unfold is_digit_or_minus.
      pose proof (pretty_N_char_digit (x `mod` 10)%N).
      by destruct (Ascii.is_nat _).
Qed.

Lemma toString_digits n : all_chars is_digit_or_minus (JS.toString n) = true.
Proof.
  unfold JS.toString, pretty, pretty_Z.
  destruct n as [|p|p]; [done| |].
  - unfold pretty, pretty_positive, pretty, pretty_N.
    case_decide; [done|]. by apply pretty_N_go_digits.
  - rewrite all_chars_app. apply andb_true_intro. split; [done|].
    unfold pretty, pretty_positive, pretty, pretty_N.
    case_decide; [done|]. by apply pretty_N_go_digits.
Qed.

Lemma toString_all_chars (P : ascii → bool) n :
  (∀ a, is_digit_or_minus a = true → P a = true) →
  all_chars P (JS.toString n) = true.
Proof. intros HP. eapply all_chars_impl; [exact HP|apply toString_digits]. Qed.

Lemma digit_or_minus_cases a :
  is_digit_or_minus a = true →
  a ∈ ["0"; "1"; "2"; "3"; "4"; "5"; "6"; "7"; "8"; "9"; "-"]%char.
Proof.
  unfold is_digit_or_minus. destruct (Ascii.is_nat a) eqn:E.
  - intros _. unfold Ascii.is_nat in E.
    repeat (case_match; simplify_eq; try set_solver).
  - intros ->%Ascii.eqb_eq. set_solver.
Qed.

Ltac by_digit_cases :=
  let a := fresh "a" in
  let Ha := fresh "Ha" in
  intros a Ha; apply digit_or_minus_cases in Ha;
  repeat (apply elem_of_cons in Ha as [->|Ha]; [done|]);
  by apply elem_of_nil in Ha.

Lemma toString_no_newline n : no_newline (JS.toString n) = true.
Proof. apply toString_all_chars. by_digit_cases. Qed.

(** ** The encoder processes that [generateHLS] starts *)

Lemma for_of_spawn {A} (g : A → Process) l w :
  for_of l (λ x, spawn (g x)) w
  = (Ok (), mkWorld (files w) (dirs w) (writable w) (console w)
              (spawned w ++ (g <$> l)) (clock w)).
Proof.
  revert w. induction l as [|x l IH]; intros w; simpl.
  - unfold ret. rewrite app_nil_r. by destruct w.
  - unfold bind, spawn at 1. rewrite IH. simpl.
    by rewrite <- (assoc_L (++)).
Qed.

Lemma generateHLS_spawned outputDir basePath codecInfo w :
  generateHLS outputDir basePath codecInfo w
  = (Ok (),
     mkWorld (files w) (dirs w) (writable w) (console w)
       (spawned w
        ++ mkProcess VideoJob (hlsArgs outputDir basePath codecInfo)
           :: ((λ audio, mkProcess (AudioJob (Audio.index audio))
                           (audioArgs outputDir audio))
               <$> audioStreams codecInfo)
        ++ ((λ subtitle, mkProcess (SubtitleJob (Subtitle.index subtitle))
                           (subtitleArgs outputDir subtitle))
            <$> subtitles codecInfo))
       (clock w)).
Proof.
  unfold generateHLS. unfold bind at 1. unfold spawn at 1.
  unfold bind. rewrite for_of_spawn. rewrite for_of_spawn. simpl.
  by rewrite <- !(assoc_L (++)).
Qed.

(** C4.  The video process is started with [-c:v copy] exactly when the
    source video codec is [h264] and the pixel format does not contain
    [10]; in every other case it is started with
    [-c:v libx264 -preset ultrafast].  The arguments that follow, from
    [-an] on, are the same in both cases. *)
Theorem video_job_copies_iff_h264_8bit outputDir basePath codecInfo w :
  let compatible :=
    videoCodec codecInfo = Some "h264"
    ∧ ¬ ∃ f pre post, pixFmt codecInfo = Some f ∧ f = pre +:+ "10" +:+ post in
  ∃ job rest w',
    generateHLS outputDir basePath codecInfo w = (Ok (), w')
    ∧ spawned w' !! length (spawned w) = Some job
    ∧ kind job = VideoJob
    ∧ head rest = Some "-an"
    ∧ (compatible ∧ args job = ["-i"; "pipe:0"; "-c:v"; "copy"] ++ rest
       ∨ ¬ compatible
         ∧ args job = ["-i"; "pipe:0"; "-c:v"; "libx264";
                       "-preset"; "ultrafast"] ++ rest)
    ∧ (Encoder.argAfter "-c:v" (args job) = Some "copy" ↔ compatible).
Proof.
  intros compatible.
  assert (Decision compatible) as [Hc|Hc].
  { unfold compatible. apply and_dec; [apply _|]. apply not_dec.
    destruct (pixFmt codecInfo) as [f|].
    - destruct (JS.includes f "10") eqn:E.
      + left. apply includes_spec in E as (pre & post & E). eauto.
      + right. intros (f' & pre & post & [= <-] & Hf).
        assert (JS.includes f "10" = true) as E'
          by (apply includes_spec; eauto). congruence.
    - right. by intros (? & ? & ? & ? & ?). }
  - exists (mkProcess VideoJob (hlsArgs outputDir basePath codecInfo)),
      (drop 4 (hlsArgs outputDir basePath codecInfo)).
    eexists. split; [apply generateHLS_spawned|]. simpl.
    split; [by rewrite lookup_app_r, Nat.sub_diag by lia|]. simpl.
    assert (bool_decide (videoCodec codecInfo = Some "h264")
            && negb match pixFmt codecInfo with
                    | Some f => JS.includes f "10"
                    | None => false
                    end = true) as Hb.
    { destruct Hc as [Hv Hp]. rewrite bool_decide_eq_true_2 by done. simpl.
      destruct (pixFmt codecInfo) as [f|]; [|done].
      destruct (JS.includes f "10") eqn:E; [|done].
      destruct Hp. apply includes_spec in E as (pre & post & E). eauto. }
    unfold hlsArgs. rewrite Hb. simpl.
    split; [done|]. split; [reflexivity|]. split; [left; done|]. done.
  - exists (mkProcess VideoJob (hlsArgs outputDir basePath codecInfo)),
      (drop 6 (hlsArgs outputDir basePath codecInfo)).
    eexists. split; [apply generateHLS_spawned|]. simpl.
    split; [by rewrite lookup_app_r, Nat.sub_diag by lia|]. simpl.
    assert (bool_decide (videoCodec codecInfo = Some "h264")
            && negb match pixFmt codecInfo with
                    | Some f => JS.includes f "10"
                    | None => false
                    end = false) as Hb.
    { apply not_true_is_false. intros [Hv Hp]%andb_prop. apply Hc.
      apply bool_decide_eq_true in Hv. split; [done|].
      intros (f & pre & post & Hf & E). rewrite Hf in Hp.
      assert (JS.includes f "10" = true) as E'
        by (apply includes_spec; eauto).
      by rewrite E' in Hp. }
    unfold hlsArgs. rewrite Hb. simpl.
    split; [done|]. split; [reflexivity|]. split; [right; done|].
    split; [done|]. intros ?. done.
Qed.

(** ** Names of segments and playlists *)

Lemma all_chars_cycle P k : P "0"%char = true → all_chars P (JS.cycle "0" "0" k) = true.
Proof.
  intros HP. assert (∀ cur, cur = "0" ∨ cur = EmptyString →
                            all_chars P (JS.cycle "0" cur k) = true) as H.
  { induction k as [|k IH]; intros cur Hcur; [done|].
    destruct Hcur as [->| ->]; cbn [JS.cycle all_chars];
      rewrite HP; simpl; apply IH; auto. }
  apply H. by left.
Qed.

Lemma all_chars_padStart P n s :
  P "0"%char = true → all_chars P s = true →
  all_chars P (JS.padStart n "0" s) = true.
Proof.
  intros HP Hs. unfold JS.padStart. destruct (_ <=? _)%nat; [done|].
  rewrite all_chars_app, Hs, andb_true_r. by apply all_chars_cycle.
Qed.

Lemma padded_all_chars (P : ascii → bool) i :
  (∀ a, is_digit_or_minus a = true → P a = true) →
  all_chars P (JS.padStart 3 "0" (JS.toString i)) = true.
Proof.
  intros HP. apply all_chars_padStart; [by apply HP|].
  by apply toString_all_chars.
Qed.

Lemma videoSegmentName_chars c i :
  (∀ a, is_digit_or_minus a = true → not_char c a = true) →
  all_chars (not_char c) "segment_.ts" = true →
  all_chars (not_char c) (videoSegmentName i) = true.
Proof.
  intros HP Hc. unfold videoSegmentName.
  rewrite !all_chars_app, padded_all_chars by done.
  change "segment_.ts" with ("segment_" +:+ ".ts") in Hc.
  rewrite all_chars_app in Hc. apply andb_prop in Hc as [-> ->]. done.
Qed.

Lemma audioSegmentName_chars c index i :
  (∀ a, is_digit_or_minus a = true → not_char c a = true) →
  all_chars (not_char c) "audio__.ts" = true →
  all_chars (not_char c) (audioSegmentName index i) = true.
Proof.
  intros HP Hc. unfold audioSegmentName.
  rewrite !all_chars_app, padded_all_chars, toString_all_chars by done.
  change "audio__.ts" with ("audio_" +:+ "_" +:+ ".ts") in Hc.
  rewrite !all_chars_app in Hc.
  apply andb_prop in Hc as [-> [-> ->]%andb_prop]. done.
Qed.

Lemma includes_slash_free s :
  all_chars (not_char "/") s = true → JS.includes s "/" = false.
Proof.
  intros H. destruct (JS.includes s "/") eqn:E; [|done].
  apply includes_spec in E as (pre & post & ->).
  rewrite !all_chars_app in H.
  change (all_chars (not_char "/") "/") with false in H.
  by rewrite andb_false_l, andb_false_r in H.
Qed.

Lemma basename_join dir name :
  all_chars (not_char "/") name = true →
  JS.basename (JS.path_join [dir; name]) = name.
Proof.
  intros Hn. unfold JS.path_join. rewrite join_cons. cbn [JS.join].
  induction dir as [|a dir IH].
  - rewrite str_app_nil_l. change ("/" +:+ name) with (String "/" name).
    cbn [JS.basename]. by rewrite (includes_slash_free _ Hn).
  - rewrite str_app_cons. cbn [JS.basename].
    assert (JS.includes (dir +:+ "/" +:+ name) "/" = true) as ->; [|done].
    apply includes_spec. by exists dir, name.
Qed.

Lemma expand_go_plain_app s t n :
  all_chars (not_char "%") s = true →
  Encoder.expand_go Encoder.Plain (s +:+ t) n
  = s +:+ Encoder.expand_go Encoder.Plain t n.
Proof.
  induction s as [|a s IH]; [done|]. cbn [all_chars].
  intros [Ha Hs]%andb_prop. rewrite !str_app_cons. cbn [Encoder.expand_go].
  unfold not_char in Ha. apply negb_true_iff in Ha. rewrite Ha.
  by rewrite (IH Hs).
Qed.

Lemma expand_video_template i :
  Encoder.expand "segment_%03d.ts" i = videoSegmentName i.
Proof. reflexivity. Qed.

Lemma expand_audio_template index i :
  Encoder.expand ("audio_" +:+ JS.toString index +:+ "_%03d.ts") i
  = audioSegmentName index i.
Proof.
  unfold Encoder.expand.
  change ("audio_" +:+ JS.toString index +:+ "_%03d.ts")
    with ("audio_" +:+ (JS.toString index +:+ "_%03d.ts")).
  rewrite (expand_go_plain_app "audio_") by done.
  rewrite expand_go_plain_app by (apply toString_all_chars; by_digit_cases).
  reflexivity.
Qed.

Lemma padded_three_digits i :
  0 <= i < 1000 → String.length (JS.padStart 3 "0" (JS.toString i)) = 3%nat.
Proof.
  intros Hi.
  assert (Forall (λ i, String.length (JS.padStart 3 "0" (JS.toString i)) = 3%nat)
            (seqZ 0 1000)) as Hall.
  { apply (bool_decide_unpack _). vm_compute. exact I. }
  rewrite Forall_forall in Hall. apply Hall. apply elem_of_seqZ. lia.
Qed.

(** The entries of a planned playlist are the names it was built from. *)
Lemma segmentEntries_planned (name : Z → string) (l : list Z) :
  segmentEntries
    ([ "#EXTM3U"; "#EXT-X-VERSION:3";
       "#EXT-X-TARGETDURATION:" +:+ JS.toString hlsTime;
       "#EXT-X-MEDIA-SEQUENCE:0" ]
     ++ concat ((λ i, [ "#EXTINF:" +:+ JS.toString hlsTime +:+ ","; name i ])
                <$> l)
     ++ [ "#EXT-X-ENDLIST" ])
  = name <$> l.
Proof.
  change (segmentEntries
            (concat ((λ i, [ "#EXTINF:10,"; name i ]) <$> l)
             ++ [ "#EXT-X-ENDLIST" ]) = name <$> l).
  induction l as [|i l IH]; [done|].
  cbn [fmap list_fmap concat app segmentEntries].
  change (JS.startsWith "#EXTINF:10," "#EXTINF:") with true. cbn iota.
  f_equal. exact IH.
Qed.

Lemma video_job_targets outputDir basePath codecInfo :
  let job := mkProcess VideoJob (hlsArgs outputDir basePath codecInfo) in
  Encoder.playlistPath job = Some (JS.path_join [outputDir; "video.m3u8"])
  ∧ Encoder.segmentTemplate job
    = Some (JS.path_join [outputDir; "segment_%03d.ts"])
  ∧ Encoder.startNumber job = "0".
Proof.
  unfold Encoder.playlistPath, Encoder.segmentTemplate, Encoder.startNumber,
    hlsArgs. simpl.
  by destruct (_ && _).
Qed.

Lemma argAfter_skip flag a b r :
  String.eqb a flag = false →
  Encoder.argAfter flag (a :: b :: r) = Encoder.argAfter flag (b :: r).
Proof. intros H. cbn [Encoder.argAfter]. by rewrite H. Qed.

Lemma path_join_not_flag dir name flag :
  JS.includes flag "/" = false →
  String.eqb (JS.path_join [dir; name]) flag = false.
Proof.
  intros Hflag. apply String.eqb_neq. intros E.
  assert (JS.includes (JS.path_join [dir; name]) "/" = true) as Hin.
  { apply includes_spec. by exists dir, name. }
  congruence.
Qed.

Lemma audio_job_targets outputDir audio :
  let job := mkProcess (AudioJob (Audio.index audio))
               (audioArgs outputDir audio) in
  Encoder.playlistPath job
  = Some (JS.path_join
            [outputDir;
             "audio_" +:+ JS.toString (Audio.index audio) +:+ ".m3u8"])
  ∧ Encoder.segmentTemplate job
    = Some (JS.path_join
              [outputDir;
               "audio_" +:+ JS.toString (Audio.index audio) +:+ "_%03d.ts"])
  ∧ Encoder.startNumber job = "0".
Proof.
  unfold Encoder.playlistPath, Encoder.segmentTemplate, Encoder.startNumber,
    audioArgs. cbn [args].
  destruct (String.eqb (Audio.codec audio) "aac");
    (split; [reflexivity|split; [reflexivity|]]); cbn [app];
    repeat (rewrite argAfter_skip
              by (reflexivity || by apply path_join_not_flag));
    reflexivity.
Qed.

Lemma audio_template_slash_free index :
  all_chars (not_char "/") ("audio_" +:+ JS.toString index +:+ "_%03d.ts")
  = true.
Proof.
  rewrite !all_chars_app, toString_all_chars by by_digit_cases. done.
Qed.

(** C3.  The encoder processes are told to write the very names the
    planner put into the placeholder playlists.  The video process writes
    the playlist [video.m3u8] and segments after the template
    [segment_%03d.ts], numbered from 0, and the entries of the planned
    video playlist are the expansions of that template at 0, 1, ...;
    for every audio stream of index [k] the same holds of
    [audio_k.m3u8] and [audio_k_%03d.ts].  The segment number is padded
    with zeros to three digits, the first being [000]. *)
Theorem planner_names_are_encoder_names outputDir codecInfo w :
  let n := Math_ceil (duration codecInfo / inject_Z hlsTime)%Q in
  ∃ w',
    generateHLS outputDir EmptyString codecInfo w = (Ok (), w')
    ∧ (∀ env,
         generatePreGeneratedM3U8Video env outputDir codecInfo
         = writeFile env (JS.path_join [outputDir; "video.m3u8"])
             (JS.join nl (video_m3u8Content codecInfo)))
    ∧ (∃ job t,
         job ∈ spawned w' ∧ kind job = VideoJob
         ∧ Encoder.playlistPath job
           = Some (JS.path_join [outputDir; "video.m3u8"])
         ∧ Encoder.segmentTemplate job = Some t
         ∧ t = JS.path_join [outputDir; JS.basename t]
         ∧ Encoder.startNumber job = "0"
         ∧ segmentEntries (video_m3u8Content codecInfo)
           = Encoder.expand (JS.basename t) <$> seqZ 0 n
         ∧ ∀ i, Encoder.expand (JS.basename t) i
                = "segment_" +:+ JS.padStart 3 "0" (JS.toString i) +:+ ".ts")
    ∧ (∀ env,
         generatePreGeneratedM3U8Audio env outputDir codecInfo
         = for_of (audioStreams codecInfo) (λ audio,
             writeFile env
               (JS.path_join
                  [outputDir;
                   "audio_" +:+ JS.toString (Audio.index audio) +:+ ".m3u8"])
               (JS.join nl (audio_m3u8Content codecInfo audio))))
    ∧ (∀ audio, audio ∈ audioStreams codecInfo →
         ∃ job t,
           job ∈ spawned w' ∧ kind job = AudioJob (Audio.index audio)
           ∧ Encoder.playlistPath job
             = Some (JS.path_join
                       [outputDir;
                        "audio_" +:+ JS.toString (Audio.index audio)
                        +:+ ".m3u8"])
           ∧ Encoder.segmentTemplate job = Some t
           ∧ t = JS.path_join [outputDir; JS.basename t]
           ∧ Encoder.startNumber job = "0"
           ∧ segmentEntries (audio_m3u8Content codecInfo audio)
             = Encoder.expand (JS.basename t) <$> seqZ 0 n
           ∧ ∀ i, Encoder.expand (JS.basename t) i
                  = "audio_" +:+ JS.toString (Audio.index audio) +:+ "_"
                    +:+ JS.padStart 3 "0" (JS.toString i) +:+ ".ts")
    ∧ (∀ i, 0 <= i < 1000 →
         String.length (JS.padStart 3 "0" (JS.toString i)) = 3%nat)
    ∧ JS.padStart 3 "0" (JS.toString 0) = "000".
Proof.
  intros n. eexists. split; [apply generateHLS_spawned|].
  split; [done|]. split; [|split; [done|split; [|split]]].
  - destruct (video_job_targets outputDir EmptyString codecInfo)
      as (Hp & Ht & Hs).
    eexists _, _. split_and!; [| |exact Hp|exact Ht| |exact Hs| |].
    + simpl. apply elem_of_app. right. apply elem_of_cons. by left.
    + done.
    + by rewrite basename_join.
    + rewrite basename_join by done. unfold video_m3u8Content.
      by rewrite segmentEntries_planned.
    + intros i. by rewrite basename_join.
  - intros audio Hin.
    destruct (audio_job_targets outputDir audio) as (Hp & Ht & Hs).
    pose proof (audio_template_slash_free (Audio.index audio)) as Hfree.
    eexists _, _. split_and!; [| |exact Hp|exact Ht| |exact Hs| |].
    + simpl. apply elem_of_app. right. apply elem_of_cons. right.
      apply elem_of_app. left. apply list_elem_of_fmap. by exists audio.
    + done.
    + by rewrite basename_join.
    + rewrite basename_join by done. unfold audio_m3u8Content.
      rewrite segmentEntries_planned. apply list_fmap_ext.
      intros _ i _. symmetry. apply expand_audio_template.
    + intros i. rewrite basename_join by done. apply expand_audio_template.
  - apply padded_three_digits.
  - reflexivity.
Qed.

(** ** The planned playlists *)

(** A duration that is not negative has a count of segments that is not
    negative, so that the maximum with zero is the count itself. *)
Lemma ceil_nonneg (d : Q) :
  (0 <= d)%Q → 0 <= Math_ceil (d / inject_Z hlsTime)%Q.
Proof.
  intros Hd. unfold Math_ceil. change 0 with (Qceiling 0).
  apply Qceiling_resp_le. apply Qle_shift_div_l; [done|].
  by rewrite Qmult_0_l.
Qed.

Lemma planned_lines_no_newline (name : Z → string) (l : list Z) :
  (∀ i, no_newline (name i) = true) →
  Forall (λ s, no_newline s = true)
    ([ "#EXTM3U"; "#EXT-X-VERSION:3";
       "#EXT-X-TARGETDURATION:" +:+ JS.toString hlsTime;
       "#EXT-X-MEDIA-SEQUENCE:0" ]
     ++ concat ((λ i, [ "#EXTINF:" +:+ JS.toString hlsTime +:+ ","; name i ])
                <$> l)
     ++ [ "#EXT-X-ENDLIST" ]).
Proof.
  intros Hname. apply Forall_app. split; [by repeat constructor|].
  apply Forall_app. split; [|by repeat constructor].
  apply Forall_concat, Forall_fmap, Forall_true. intros i.
  by repeat constructor.
Qed.

Lemma planned_is_media_playlist (name : Z → string) (l : list Z) :
  (∀ i, no_newline (name i) = true) →
  mediaPlaylistOf
    (JS.join nl
       ([ "#EXTM3U"; "#EXT-X-VERSION:3";
          "#EXT-X-TARGETDURATION:" +:+ JS.toString hlsTime;
          "#EXT-X-MEDIA-SEQUENCE:0" ]
        ++ concat ((λ i, [ "#EXTINF:" +:+ JS.toString hlsTime +:+ ",";
                           name i ]) <$> l)
        ++ [ "#EXT-X-ENDLIST" ]))
    (name <$> l).
Proof.
  intros Hname. eexists. split; [|].
  2:{ unfold linesOf. rewrite split_join;
        [|done|by apply planned_lines_no_newline].
      rewrite <- list_fmap_compose. reflexivity. }
  by repeat constructor.
Qed.

Lemma videoSegmentName_no_newline i : no_newline (videoSegmentName i) = true.
Proof. apply videoSegmentName_chars; [by_digit_cases|done]. Qed.

Lemma audioSegmentName_no_newline index i :
  no_newline (audioSegmentName index i) = true.
Proof. apply audioSegmentName_chars; [by_digit_cases|done]. Qed.

(** *** Writing them, with nothing else going on *)

Lemma writeFile_idle p c w :
  writable w p = true →
  writeFile idle p c w
  = (Ok (), mkWorld (<[p := c]> (files w)) (dirs w) (writable w) (console w)
              (spawned w) (S (clock w))).
Proof.
  intros Hw. unfold writeFile, yield, idle. unfold bind. simpl. by rewrite Hw.
Qed.

Lemma for_of_writeFile_idle {A} (path content : A → string) (l : list A) w :
  (∀ x, x ∈ l → writable w (path x) = true) →
  ∃ w',
    for_of l (λ x, writeFile idle (path x) (content x)) w = (Ok (), w')
    ∧ (∀ x, x ∈ l →
         (∀ y, y ∈ l → path y = path x → content y = content x) →
         files w' !! path x = Some (content x))
    ∧ (∀ p, (∀ x, x ∈ l → path x ≠ p) → files w' !! p = files w !! p).
Proof.
  revert w. induction l as [|x l IH]; intros w Hw.
  - exists w. split; [done|]. split; [|done]. intros x Hx.
    by apply elem_of_nil in Hx.
  - cbn [for_of]. unfold bind.
    rewrite writeFile_idle by (apply Hw; by left).
    edestruct (IH (mkWorld (<[path x := content x]> (files w)) (dirs w)
                     (writable w) (console w) (spawned w) (S (clock w))))
      as (w' & Hrun & Hin & Hout).
    { intros y Hy. simpl. apply Hw. by right. }
    exists w'. split; [done|]. split.
    + intros z Hz Hsame.
      assert (∀ y, y ∈ l → path y = path z → content y = content z) as Hl.
      { intros y Hy. apply Hsame. by right. }
      destruct (decide (Exists (λ y, path y = path z) l)) as [Hex|Hno].
      * apply Exists_exists in Hex as (y & Hy & Hp).
        rewrite <- Hp, <- (Hl y Hy Hp). apply Hin; [done|].
        intros y' Hy' Hp'. rewrite (Hl y Hy Hp).
        apply Hl; [done|congruence].
      * rewrite Hout.
        2:{ intros y Hy Hp. apply Hno. apply Exists_exists. by exists y. }
        simpl. apply elem_of_cons in Hz as [->|Hz].
        -- apply lookup_insert_eq.
        -- destruct Hno. apply Exists_exists. by exists z.
    + intros p Hp. rewrite Hout.
      * simpl. apply lookup_insert_ne. apply Hp. by left.
      * intros y Hy. apply Hp. by right.
Qed.

Lemma audio_path_inj dir i j :
  JS.path_join [dir; "audio_" +:+ JS.toString i +:+ ".m3u8"]
  = JS.path_join [dir; "audio_" +:+ JS.toString j +:+ ".m3u8"] →
  i = j.
Proof.
  unfold JS.path_join. rewrite !join_cons. cbn [JS.join].
  intros H. do 3 apply String.app_inj in H.
  apply str_app_inj_r in H. by apply (inj pretty) in H.
Qed.

(** C2.  For a probe result of duration [D], the planned video playlist
    and the planned playlist of every audio stream consist of some header
    lines, then exactly [ceil (D / 10)] segment entries (none for a
    negative [D]), each an [#EXTINF] line followed by the line of the
    segment's file name, then [#EXT-X-ENDLIST]; and these texts are what
    the planner writes to [video.m3u8] and [audio_k.m3u8]. *)
Theorem planned_playlists_have_ceil_entries codecInfo outputDir w :
  (∀ p, writable w p = true) →
  ∃ n : nat,
    Z.of_nat n = Z.max 0 (Math_ceil (duration codecInfo / inject_Z 10)%Q)
    ∧ (∃ names w',
         names = videoSegmentName <$> seqZ 0 (Z.of_nat n)
         ∧ length names = n
         ∧ mediaPlaylistOf (JS.join nl (video_m3u8Content codecInfo)) names
         ∧ generatePreGeneratedM3U8Video idle outputDir codecInfo w
           = (Ok (), w')
         ∧ files w' !! JS.path_join [outputDir; "video.m3u8"]
           = Some (JS.join nl (video_m3u8Content codecInfo)))
    ∧ ∃ w',
        generatePreGeneratedM3U8Audio idle outputDir codecInfo w = (Ok (), w')
        ∧ ∀ audio, audio ∈ audioStreams codecInfo →
            ∃ names,
              names = audioSegmentName (Audio.index audio)
                      <$> seqZ 0 (Z.of_nat n)
              ∧ length names = n
              ∧ mediaPlaylistOf
                  (JS.join nl (audio_m3u8Content codecInfo audio)) names
              ∧ files w' !! JS.path_join
                              [outputDir;
                               "audio_" +:+ JS.toString (Audio.index audio)
                               +:+ ".m3u8"]
                = Some (JS.join nl (audio_m3u8Content codecInfo audio)).
Proof.
  intros Hw.
  set (k := Math_ceil (duration codecInfo / inject_Z hlsTime)%Q) in *.
  exists (Z.to_nat k). split; [unfold hlsTime in k; lia|].
  assert (seqZ 0 (Z.of_nat (Z.to_nat k)) = seqZ 0 k) as Hseq.
  { unfold seqZ. by rewrite Nat2Z.id. }
  rewrite Hseq. split.
  - exists (videoSegmentName <$> seqZ 0 k). eexists. split_and!.
    + done.
    + by rewrite length_fmap, length_seqZ.
    + apply planned_is_media_playlist, videoSegmentName_no_newline.
    + unfold generatePreGeneratedM3U8Video. by apply writeFile_idle.
    + apply lookup_insert_eq.
  - unfold generatePreGeneratedM3U8Audio.
    edestruct (for_of_writeFile_idle
                 (λ a : Audio.t,
                    JS.path_join [outputDir;
                                  "audio_" +:+ JS.toString (Audio.index a)
                                  +:+ ".m3u8"])
                 (λ a, JS.join nl (audio_m3u8Content codecInfo a))
                 (audioStreams codecInfo) w) as (w' & Hrun & Hin & _).
    { intros x _. apply Hw. }
    exists w'. split; [exact Hrun|]. intros audio Ha.
    exists (audioSegmentName (Audio.index audio) <$> seqZ 0 k). split_and!.
    + done.
    + by rewrite length_fmap, length_seqZ.
    + apply planned_is_media_playlist. intros i.
      apply audioSegmentName_no_newline.
    + apply Hin; [done|]. intros y _ Hp. apply audio_path_inj in Hp.
      unfold audio_m3u8Content. by rewrite Hp.
Qed.

Lemma planned_playlists_have_ceil_entries_witness :
  ∃ n : nat,
    Z.of_nat n = 3
    ∧ (∃ names w',
         names = videoSegmentName <$> seqZ 0 (Z.of_nat n)
         ∧ length names = n
         ∧ mediaPlaylistOf (JS.join nl (video_m3u8Content sampleCodecInfo))
             names
         ∧ generatePreGeneratedM3U8Video idle "out" sampleCodecInfo emptyWorld
           = (Ok (), w')
         ∧ files w' !! JS.path_join ["out"; "video.m3u8"]
           = Some (JS.join nl (video_m3u8Content sampleCodecInfo)))
    ∧ ∃ w',
        generatePreGeneratedM3U8Audio idle "out" sampleCodecInfo emptyWorld
        = (Ok (), w')
        ∧ ∀ audio, audio ∈ audioStreams sampleCodecInfo →
            ∃ names,
              names = audioSegmentName (Audio.index audio)
                      <$> seqZ 0 (Z.of_nat n)
              ∧ length names = n
              ∧ mediaPlaylistOf
                  (JS.join nl (audio_m3u8Content sampleCodecInfo audio)) names
              ∧ files w' !! JS.path_join
                              ["out";
                               "audio_" +:+ JS.toString (Audio.index audio)
                               +:+ ".m3u8"]
                = Some (JS.join nl (audio_m3u8Content sampleCodecInfo audio)).
Proof.
  apply (planned_playlists_have_ceil_entries sampleCodecInfo "out" emptyWorld).
  reflexivity.
Defined.

(** ** Suspensions and polling *)

Section Polling.

Context (env : nat → World → World).

Lemma advance_S n w :
  advance env (S n) w = (yield env (advance env n w)).2.
Proof.
  revert w. induction n as [|n IH]; intros w; [done|].
  change (advance env (S (S n)) w)
    with (advance env (S n) (yield env w).2).
  by rewrite IH.
Qed.

Lemma advance_add n m w :
  advance env (n + m) w = advance env m (advance env n w).
Proof. revert w. induction n as [|n IH]; intros w; [done|]. apply IH. Qed.

Lemma yield_run w : yield env w = (Ok (), advance env 1 w).
Proof. reflexivity. Qed.

Lemma existsSync_yield_keep p w :
  never_deletes env → existsSync p w = true →
  existsSync p (advance env 1 w) = true.
Proof.
  intros Hmono. unfold existsSync. simpl.
  destruct (Hmono (clock w) w p) as [Hf Hd].
  intros [H|H]%orb_prop; apply orb_true_intro.
  - left. apply bool_decide_eq_true in H. by apply bool_decide_eq_true, Hf.
  - right. apply bool_decide_eq_true in H. by apply bool_decide_eq_true, Hd.
Qed.

Lemma file_keep p w k :
  never_deletes env → is_Some (files w !! p) →
  is_Some (files (advance env k w) !! p).
Proof.
  intros Hmono. revert w. induction k as [|k IH]; intros w H; [done|].
  apply IH. simpl. by apply Hmono.
Qed.

Lemma dir_keep p w k :
  keeps_dir env p → p ∈ dirs w → p ∈ dirs (advance env k w).
Proof.
  intros Hkeep. revert w. induction k as [|k IH]; intros w H; [done|].
  apply IH. simpl. by apply Hkeep.
Qed.

Lemma absent_keep p w k :
  never_creates env p → existsSync p w = false →
  existsSync p (advance env k w) = false.
Proof.
  intros Hnc. revert w. induction k as [|k IH]; intros w H; [done|].
  apply IH. specialize (Hnc (clock w) w H). unfold existsSync in *.
  exact Hnc.
Qed.

(** What a polling loop has seen when it stops. *)
Lemma wait_until_exists_run p fuel w :
  (∃ k, (k <= fuel)%nat
        ∧ wait_until_exists env p fuel w = (Ok (), advance env k w)
        ∧ existsSync p (advance env k w) = true)
  ∨ (wait_until_exists env p fuel w = (Pending, advance env fuel w)
     ∧ ∀ k, (k <= fuel)%nat → existsSync p (advance env k w) = false).
Proof.
  revert w. induction fuel as [|fuel IH]; intros w; cbn [wait_until_exists].
  - destruct (existsSync p w) eqn:E.
    + left. exists 0%nat. by repeat split.
    + right. split; [done|]. intros k Hk. by replace k with 0%nat by lia.
  - destruct (existsSync p w) eqn:E.
    + left. exists 0%nat. repeat split; [lia|done].
    + unfold sleep, bind. rewrite yield_run.
      destruct (IH (advance env 1 w)) as [(k & Hk & Hrun & Hex)|[Hrun Hno]].
      * left. exists (S k). repeat split; [lia|done..].
      * right. split; [done|]. intros [|k] Hk; [done|].
        apply (Hno k). lia.
Qed.

Lemma wait_until_exists_enough p n w fuel :
  existsSync p (advance env n w) = true → (n <= fuel)%nat →
  ∃ k, (k <= n)%nat
       ∧ wait_until_exists env p fuel w = (Ok (), advance env k w)
       ∧ existsSync p (advance env k w) = true.
Proof.
  revert w fuel. induction n as [|n IH]; intros w fuel Hex Hle.
  - exists 0%nat. split; [done|]. simpl in Hex.
    destruct fuel; cbn [wait_until_exists]; by rewrite Hex.
  - destruct fuel as [|fuel]; [lia|]. cbn [wait_until_exists].
    destruct (existsSync p w) eqn:E.
    + exists 0%nat. repeat split; [lia|done].
    + unfold sleep, bind. rewrite yield_run.
      destruct (IH (advance env 1 w) fuel Hex) as (k & Hk & Hrun & Hex');
        [lia|].
      exists (S k). repeat split; [lia|done..].
Qed.

Lemma wait_until_exists_never p fuel w :
  never_creates env p → existsSync p w = false →
  wait_until_exists env p fuel w = (Pending, advance env fuel w).
Proof.
  intros Hnc Hno.
  destruct (wait_until_exists_run p fuel w)
    as [(k & _ & _ & Hex)|[Hrun _]]; [|done].
  by rewrite (absent_keep p w k Hnc Hno) in Hex.
Qed.

Lemma readFile_run p w :
  readFile env p w
  = match files (advance env 1 w) !! p with
    | Some c => (Ok c, advance env 1 w)
    | None => (Throw (FsError p), advance env 1 w)
    end.
Proof. reflexivity. Qed.

(** The waiting part of [play] answers only with the master playlist, and only
    once both files have been seen. *)
Lemma serveMaster_answers outputDir fuel w resp w' :
  never_deletes env →
  serveMaster env outputDir fuel w = (Ok resp, w') →
  ∃ c, files w' !! JS.path_join [outputDir; "master.m3u8"] = Some c
       ∧ existsSync (JS.path_join [outputDir; "segment_004.ts"]) w' = true
       ∧ resp = mkResponse 200
                  [("Content-Type", "application/vnd.apple.mpegurl")]
                  (BodyText c).
Proof.
  intros Hmono. unfold serveMaster. unfold bind at 1.
  destruct (wait_until_exists_run
              (JS.path_join [outputDir; "master.m3u8"]) fuel w)
    as [(k1 & _ & -> & _)|[-> _]]; [|done].
  unfold bind at 1.
  destruct (wait_until_exists_run
              (JS.path_join [outputDir; "segment_004.ts"]) fuel
              (advance env k1 w))
    as [(k2 & _ & -> & Hseg)|[-> _]]; [|done].
  unfold bind. rewrite readFile_run.
  destruct (files _ !! _) as [c|] eqn:Hc; [|done].
  unfold ret. intros [= <- <-]. exists c. split; [done|].
  split; [|done]. by apply existsSync_yield_keep.
Qed.

Lemma serveMaster_ready outputDir w n :
  never_deletes env →
  is_Some (files (advance env n w)
           !! JS.path_join [outputDir; "master.m3u8"]) →
  JS.path_join [outputDir; "master.m3u8"] ∉ dirs (advance env n w) →
  existsSync (JS.path_join [outputDir; "segment_004.ts"]) (advance env n w)
  = true →
  ∃ resp w' c,
    serveMaster env outputDir n w = (Ok resp, w')
    ∧ files w' !! JS.path_join [outputDir; "master.m3u8"] = Some c
    ∧ resp = mkResponse 200
               [("Content-Type", "application/vnd.apple.mpegurl")]
               (BodyText c).
Proof.
  intros Hmono Hfile Hnodir Hseg.
  set (master := JS.path_join [outputDir; "master.m3u8"]) in *.
  set (seg := JS.path_join [outputDir; "segment_004.ts"]) in *.
  assert (existsSync master (advance env n w) = true) as Hm.
  { unfold existsSync. by rewrite (bool_decide_eq_true_2 _ Hfile). }
  destruct (wait_until_exists_enough master n w n Hm)
    as (k1 & Hk1 & Hrun1 & Hex1); [lia|].
  assert (is_Some (files (advance env k1 w) !! master)) as Hfile1.
  { unfold existsSync in Hex1. apply orb_prop in Hex1 as [H|H].
    - by apply bool_decide_eq_true in H.
    - apply bool_decide_eq_true in H. destruct Hnodir.
      replace n with (k1 + (n - k1))%nat by lia. rewrite advance_add.
      generalize (n - k1)%nat. intros m. revert H.
      generalize (advance env k1 w). clear -Hmono.
      induction m as [|m IH]; intros w0 H; [done|].
      apply IH. simpl. by apply Hmono. }
  assert (existsSync seg (advance env (n - k1) (advance env k1 w)) = true)
    as Hseg1.
  { rewrite <- advance_add. by replace (k1 + (n - k1))%nat with n by lia. }
  destruct (wait_until_exists_enough seg (n - k1) (advance env k1 w) n Hseg1)
    as (k2 & Hk2 & Hrun2 & Hex2); [lia|].
  pose proof (file_keep master _ (k2 + 1) Hmono Hfile1) as [c Hc].
  rewrite advance_add in Hc.
  exists (mkResponse 200
            [("Content-Type", "application/vnd.apple.mpegurl")]
            (BodyText c)),
    (advance env 1 (advance env k2 (advance env k1 w))), c.
  split; [|done].
  unfold serveMaster. fold master seg. unfold bind at 1. rewrite Hrun1.
  unfold bind at 1. rewrite Hrun2. unfold bind. rewrite readFile_run.
  by rewrite Hc.
Qed.

End Polling.

(** ** Waiting for readiness in [play] *)

Lemma path_join_ne_dir dir name : JS.path_join [dir; name] ≠ dir.
Proof.
  unfold JS.path_join. rewrite join_cons. intros H.
  apply (f_equal String.length) in H. rewrite !str_length_app in H.
  simpl in H. lia.
Qed.

Lemma encoderEnv_never_deletes : never_deletes encoderEnv.
Proof.
  intros n w p. unfold encoderEnv, addFile.
  destruct (n =? 1)%nat; [|destruct (n =? 3)%nat]; simpl; split; try done;
    intros H; rewrite lookup_insert; by case_decide.
Qed.

Section Readiness.

Context (env : nat → World → World) (ADDON_DIR : string)
  (BAD_REQUEST NOT_FOUND : Z)
  (mime_getType : string → option string)
  (Number_toString : Q → string)
  (ffprobe : TorrentFile.t → option Metadata)
  (Params : Type)
  (playSchema_safeParse : Params → string + PlayParams)
  (getTorrent : string → option Torrent)
  (getTorrentUrlBySourceId : string → string → option string)
  (downloadTorrentFile : string → Error + string)
  (addTorrent : string → Error + Torrent)
  (parseRangeHeader : option string → Z → option (Z * Z)).

Local Abbreviation play' :=
  (play env ADDON_DIR BAD_REQUEST NOT_FOUND mime_getType Number_toString
     ffprobe Params playSchema_safeParse getTorrent getTorrentUrlBySourceId
     downloadTorrentFile addTorrent parseRangeHeader).
Local Abbreviation resolveTorrent' :=
  (resolveTorrent env NOT_FOUND getTorrent getTorrentUrlBySourceId
     downloadTorrentFile addTorrent).
Local Abbreviation reaches' :=
  (reaches env NOT_FOUND Params playSchema_safeParse getTorrent
     getTorrentUrlBySourceId downloadTorrentFile addTorrent).
Local Abbreviation enterSession' :=
  (enterSession env ADDON_DIR NOT_FOUND Number_toString ffprobe getTorrent
     getTorrentUrlBySourceId downloadTorrentFile addTorrent).
Local Abbreviation prepareSession' :=
  (prepareSession env Number_toString ffprobe).

Lemma play_hls_get req params data fuel w :
  playSchema_safeParse params = inr data →
  type data = "hls" → method req = "GET" →
  play' req params fuel w
  = bind (enterSession' data)
      (λ _, serveMaster env (outputDirOf ADDON_DIR data) fuel) w.
Proof.
  intros Hp Ht Hm. unfold play, enterSession. rewrite Hp, Ht, Hm.
  unfold bind. by destruct (resolveTorrent' data w) as [[?|?|] ?].
Qed.

(** The outcome of looking up the torrent does not depend on the world,
    nor does the number of suspensions it takes. *)
Lemma resolveTorrent_run data :
  ∃ r j, ∀ w, resolveTorrent' data w = (r, advance env j w).
Proof.
  unfold resolveTorrent, await, throw, ret. unfold bind. cbn.
  destruct (getTorrent (infoHash data)) as [t|].
  { exists (Ok t), 1%nat. intros w. reflexivity. }
  destruct (getTorrentUrlBySourceId _ _) as [url|]; cbn.
  2:{ eexists _, 2%nat. intros w. reflexivity. }
  destruct (downloadTorrentFile url) as [e|path]; cbn.
  { exists (Throw e), 3%nat. intros w. reflexivity. }
  destruct (addTorrent path) as [e|t]; cbn.
  - exists (Throw e), 4%nat. intros w. reflexivity.
  - exists (Ok t), 4%nat. intros w. reflexivity.
Qed.

(** C1.  A [GET] request in [hls] mode is answered only with status 200
    and the content of [master.m3u8], and then both [master.m3u8] and
    [segment_004.ts] exist in the session's directory; and when, some
    suspensions after the request has started to wait, both exist, the
    request is answered so.  (The environment removes no file.) *)
Theorem hls_request_waits_for_master_and_fifth_segment req params data w :
  never_deletes env →
  playSchema_safeParse params = inr data →
  type data = "hls" →
  method req = "GET" →
  let outputDir := outputDirOf ADDON_DIR data in
  let master := JS.path_join [outputDir; "master.m3u8"] in
  let segment := JS.path_join [outputDir; "segment_004.ts"] in
  (∀ fuel resp w',
     play' req params fuel w = (Ok resp, w') →
     ∃ c, files w' !! master = Some c
          ∧ existsSync segment w' = true
          ∧ status resp = 200 ∧ body resp = BodyText c)
  ∧ (∀ w1 n,
       enterSession' data w = (Ok (), w1) →
       is_Some (files (advance env n w1) !! master) →
       master ∉ dirs (advance env n w1) →
       existsSync segment (advance env n w1) = true →
       ∃ fuel resp w' c,
         play' req params fuel w = (Ok resp, w')
         ∧ files w' !! master = Some c
         ∧ status resp = 200 ∧ body resp = BodyText c).
Proof.
  intros Hmono Hp Ht Hm outputDir master segment. split.
  - intros fuel resp w' Hrun.
    rewrite (play_hls_get _ _ _ _ _ Hp Ht Hm) in Hrun.
    unfold bind in Hrun.
    destruct (enterSession' data w) as [[[]|?|] w1]; [|done..].
    apply (serveMaster_answers env _ _ _ _ _ Hmono) in Hrun
        as (c & Hc & Hseg & ->).
    by exists c.
  - intros w1 n Henter Hfile Hnodir Hseg.
    destruct (serveMaster_ready env outputDir w1 n Hmono Hfile Hnodir Hseg)
      as (resp & w' & c & Hrun & Hc & ->).
    eexists n, _, w', c. split.
    { rewrite (play_hls_get _ _ _ _ _ Hp Ht Hm). unfold bind.
      rewrite Henter. exact Hrun. }
    split; [exact Hc|done].
Qed.

(** C9, as amended.  On the first [GET] request of a session in [hls]
    mode the directory is created before the probe runs; when the probe
    fails the request fails, leaving the directory behind with nothing
    written into it, and every later [GET] request of the session finds
    the directory, prepares nothing and waits for [master.m3u8] without
    end.  (The environment keeps the directory and does not write
    [master.m3u8].) *)
Theorem failed_probe_leaves_session_waiting req params data f w w1 :
  reaches' params data f w w1 →
  type data = "hls" →
  method req = "GET" →
  ffprobe f = None →
  let outputDir := outputDirOf ADDON_DIR data in
  let master := JS.path_join [outputDir; "master.m3u8"] in
  existsSync outputDir w1 = false →
  existsSync master w1 = false →
  writable w1 outputDir = true →
  keeps_dir env outputDir →
  never_creates env master →
  ∃ w2,
    (∀ fuel, play' req params fuel w = (Throw ProbeFailure, w2))
    ∧ w2 = advance env 1
             (mkWorld (files w1) ({[outputDir]} ∪ dirs w1) (writable w1)
                (console w1) (spawned w1) (clock w1))
    ∧ outputDir ∈ dirs w2
    ∧ existsSync master w2 = false
    ∧ ∀ k req2 fuel,
        method req2 = "GET" →
        ∃ w3,
          prepareSession' outputDir (Some f) (advance env k w2)
          = (Ok (), advance env k w2)
          ∧ play' req2 params fuel (advance env k w2) = (Pending, w3).
Proof.
  intros (Hp & torrent & Hres & Hf) Ht Hm Hprobe outputDir master
    Hnodir Hnomaster Hwr Hkeep Hnc.
  set (wd := mkWorld (files w1) ({[outputDir]} ∪ dirs w1) (writable w1)
               (console w1) (spawned w1) (clock w1)).
  assert (outputDir ∈ dirs (advance env 1 wd)) as Hdir.
  { apply (dir_keep env outputDir wd 1 Hkeep). simpl. set_solver. }
  assert (existsSync master (advance env 1 wd) = false) as Hnm.
  { apply (absent_keep env master wd 1 Hnc).
    unfold existsSync in *. simpl.
    apply orb_false_elim in Hnomaster as [-> Hd]. simpl.
    apply bool_decide_eq_false in Hd. apply bool_decide_eq_false.
    intros [H|H]%elem_of_union; [|done].
    apply elem_of_singleton in H. by apply path_join_ne_dir in H. }
  exists (advance env 1 wd). split_and!; [|done..|].
  - intros fuel. rewrite (play_hls_get _ _ _ _ _ Hp Ht Hm).
    unfold bind at 1. unfold enterSession. unfold bind at 1.
    rewrite Hres, Hf. fold outputDir. unfold prepareSession.
    rewrite Hnodir. cbn [negb]. unfold bind at 1. unfold mkdirSync.
    rewrite Hwr. fold wd. unfold bind at 1.
    unfold getFileCodecInfoFromStream. unfold bind at 1.
    rewrite yield_run, Hprobe. reflexivity.
  - intros k req2 fuel Hm2.
    destruct (resolveTorrent_run data) as (r & j & Hrun).
    assert (r = Ok torrent) as -> by (rewrite Hrun in Hres; congruence).
    assert (∀ w0, outputDir ∈ dirs w0 → existsSync outputDir w0 = true)
      as Hex.
    { intros w0 H0. unfold existsSync.
      rewrite (bool_decide_eq_true_2 (outputDir ∈ _)) by done.
      apply orb_true_r. }
    eexists. split.
    + unfold prepareSession.
      rewrite Hex; [done|by apply (dir_keep env outputDir _ _ Hkeep)].
    + rewrite (play_hls_get _ _ _ _ _ Hp Ht Hm2).
      unfold bind at 1. unfold enterSession. unfold bind at 1.
      rewrite Hrun, Hf. fold outputDir. unfold prepareSession.
      rewrite Hex
        by (by do 2 apply (dir_keep env outputDir _ _ Hkeep)).
      cbn [negb].
      unfold serveMaster. fold master. unfold bind at 1.
      rewrite wait_until_exists_never; [reflexivity|done|].
      by do 2 apply (absent_keep env master _ _ Hnc).
Qed.

End Readiness.

Lemma hls_request_waits_for_master_and_fifth_segment_witness :
  ∃ fuel resp w' c,
    samplePlay encoderEnv (λ _, None) (rangeRequest None) hlsParams fuel
      startedWorld = (Ok resp, w')
    ∧ files w' !! JS.path_join [sampleDir; "master.m3u8"] = Some c
    ∧ status resp = 200 ∧ body resp = BodyText c.
Proof.
  destruct (hls_request_waits_for_master_and_fifth_segment
              encoderEnv "/data" 400 404 (λ _, Some "video/x-matroska")
              (λ _, "3600") (λ _, None) PlayParams inr
              (λ _, Some (mkTorrent [sampleFile])) (λ _ _, None)
              (λ _, inl TypeError) (λ _, inl TypeError) parseRangeHeader_spec
              (rangeRequest None) hlsParams hlsParams startedWorld
              encoderEnv_never_deletes eq_refl eq_refl eq_refl)
    as [_ Hlive].
  apply (Hlive (advance encoderEnv 1 startedWorld) 3%nat).
  - reflexivity.
  - apply (bool_decide_unpack _). vm_compute. exact I.
  - apply (bool_decide_unpack _). vm_compute. exact I.
  - vm_compute. reflexivity.
Defined.

Lemma idle_keeps_dir p : keeps_dir idle p.
Proof. by intros n w H. Qed.

Lemma idle_never_creates p : never_creates idle p.
Proof. by intros n w H. Qed.

Lemma failed_probe_leaves_session_waiting_witness :
  ∃ w2,
    (∀ fuel,
       samplePlay idle (λ _, None) (rangeRequest None) hlsParams fuel
         emptyWorld = (Throw ProbeFailure, w2))
    ∧ w2 = advance idle 1
             (mkWorld ∅ ({[sampleDir]} ∪ ∅) (λ _, true) [] [] 1)
    ∧ sampleDir ∈ dirs w2
    ∧ existsSync (JS.path_join [sampleDir; "master.m3u8"]) w2 = false
    ∧ ∀ k req2 fuel,
        method req2 = "GET" →
        ∃ w3,
          prepareSession idle (λ _, "3600") (λ _, None) sampleDir
            (Some sampleFile) (advance idle k w2)
          = (Ok (), advance idle k w2)
          ∧ samplePlay idle (λ _, None) req2 hlsParams fuel
              (advance idle k w2) = (Pending, w3).
Proof.
  apply (failed_probe_leaves_session_waiting
           idle "/data" 400 404 (λ _, Some "video/x-matroska")
           (λ _, "3600") (λ _, None) PlayParams inr
           (λ _, Some (mkTorrent [sampleFile])) (λ _ _, None)
           (λ _, inl TypeError) (λ _, inl TypeError) parseRangeHeader_spec
           (rangeRequest None) hlsParams hlsParams sampleFile emptyWorld
           (advance idle 1 emptyWorld)).
  - apply sample_reaches. reflexivity.
  - reflexivity.
  - reflexivity.
  - reflexivity.
  - reflexivity.
  - reflexivity.
  - reflexivity.
  - apply idle_keeps_dir.
  - apply idle_never_creates.
Defined.

(** C9 as stated fails for [HEAD] requests in [hls] mode: a first one
    creates no directory and runs no probe, and one that follows a failed
    probe is answered at once with status 200 instead of waiting. *)
Lemma head_request_neither_prepares_nor_waits :
  (∃ resp w',
     samplePlay idle (λ _, None) (mkRequest "HEAD" None None) hlsParams 0
       emptyWorld = (Ok resp, w')
     ∧ status resp = 200 ∧ dirs w' = ∅)
  ∧ ∃ w2,
      samplePlay idle (λ _, None) (rangeRequest None) hlsParams 0 emptyWorld
      = (Throw ProbeFailure, w2)
      ∧ sampleDir ∈ dirs w2
      ∧ ∃ resp w3,
          samplePlay idle (λ _, None) (mkRequest "HEAD" None None) hlsParams 0
            w2 = (Ok resp, w3)
          ∧ status resp = 200.
Proof.
  split.
  - eexists _, _. split; [vm_compute; reflexivity|]. split; reflexivity.
  - exists (mkWorld ∅ ({[sampleDir]} ∪ ∅) (λ _, true) [] [] 2).
    split; [vm_compute; reflexivity|]. split.
    + simpl. set_solver.
    + eexists _, _. split; [vm_compute; reflexivity|reflexivity].
Qed.

(** ** Further properties of [play] *)

Lemma advance_idle n w :
  advance idle n w
  = mkWorld (files w) (dirs w) (writable w) (console w) (spawned w)
      (n + clock w).
Proof.
  revert w. induction n as [|n IH]; intros w; [by destruct w|].
  cbn [advance]. rewrite IH. unfold yield, idle. simpl.
  f_equal. lia.
Qed.

Section PlayEdges.

Context (env : nat → World → World) (ADDON_DIR : string)
  (BAD_REQUEST NOT_FOUND : Z)
  (mime_getType : string → option string)
  (Number_toString : Q → string)
  (ffprobe : TorrentFile.t → option Metadata)
  (Params : Type)
  (playSchema_safeParse : Params → string + PlayParams)
  (getTorrent : string → option Torrent)
  (getTorrentUrlBySourceId : string → string → option string)
  (downloadTorrentFile : string → Error + string)
  (addTorrent : string → Error + Torrent)
  (parseRangeHeader : option string → Z → option (Z * Z)).

Local Abbreviation play' :=
  (play env ADDON_DIR BAD_REQUEST NOT_FOUND mime_getType Number_toString
     ffprobe Params playSchema_safeParse getTorrent getTorrentUrlBySourceId
     downloadTorrentFile addTorrent parseRangeHeader).
Local Abbreviation play_idle :=
  (play idle ADDON_DIR BAD_REQUEST NOT_FOUND mime_getType Number_toString
     ffprobe Params playSchema_safeParse getTorrent getTorrentUrlBySourceId
     downloadTorrentFile addTorrent parseRangeHeader).
Local Abbreviation resolveTorrent' :=
  (resolveTorrent env NOT_FOUND getTorrent getTorrentUrlBySourceId
     downloadTorrentFile addTorrent).
Local Abbreviation reaches' :=
  (reaches env NOT_FOUND Params playSchema_safeParse getTorrent
     getTorrentUrlBySourceId downloadTorrentFile addTorrent).

(** X1.  A request that is not in [hls] mode leaves the files, the
    directories and the started processes as they were, whatever its
    method, its [Range] header and its outcome (the environment being
    idle). *)
Theorem stream_mode_leaves_session_state req params data fuel w :
  playSchema_safeParse params = inr data →
  type data ≠ "hls" →
  let w' :=
    (play idle ADDON_DIR BAD_REQUEST NOT_FOUND mime_getType Number_toString
       ffprobe Params playSchema_safeParse getTorrent getTorrentUrlBySourceId
       downloadTorrentFile addTorrent parseRangeHeader req params fuel w).2 in
  files w' = files w ∧ dirs w' = dirs w ∧ spawned w' = spawned w.
Proof.
  intros Hp Ht. unfold play. rewrite Hp.
  apply String.eqb_neq in Ht. rewrite Ht. unfold bind.
  destruct (resolveTorrent_run idle NOT_FOUND getTorrent
              getTorrentUrlBySourceId downloadTorrentFile addTorrent data)
    as (r & j & Hrun).
  rewrite Hrun, advance_idle.
  destruct r as [torrent|e|]; [|done..].
  unfold serveRange.
  destruct (at_index _ _) as [f|]; [|done].
  destruct (String.eqb (method req) "HEAD"); [done|].
  by destruct (parseRangeHeader _ _) as [[start end_]|].
Qed.

(** X2.  A [HEAD] request that reaches a file is answered at once with
    status 200, no body and the length of the file as [Content-Length];
    the [Content-Type] is the playlist type in [hls] mode and otherwise
    the type the [mime] package gives for the path of the file, or
    [application/octet-stream] when it gives none or an empty one.
    Nothing is done after the torrent has been looked up: no directory, no
    probe, no process. *)
Theorem head_request_is_answered_at_once req params data f w w1 fuel :
  reaches' params data f w w1 →
  method req = "HEAD" →
  ∃ resp,
    play' req params fuel w = (Ok resp, w1)
    ∧ status resp = 200
    ∧ body resp = BodyNull
    ∧ getHeader "Content-Length" resp
      = Some (JS.toString (TorrentFile.length f))
    ∧ getHeader "Content-Type" resp
      = Some (if String.eqb (type data) "hls"
              then "application/vnd.apple.mpegurl"
              else match mime_getType (TorrentFile.path f) with
                   | Some t =>
                       if String.eqb t EmptyString
                       then "application/octet-stream" else t
                   | None => "application/octet-stream"
                   end).
Proof.
  intros (Hp & torrent & Hres & Hf) Hm. unfold play. rewrite Hp.
  unfold bind. rewrite Hres, Hf, Hm.
  destruct (String.eqb (type data) "hls").
  - eexists. by repeat split.
  - unfold serveRange. rewrite Hm. eexists. by repeat split.
Qed.

(** X3.  When the store does not know the torrent and no source has a
    link for it, the request fails with the [NOT_FOUND] status and the
    message [Torrent not found], in either mode and for either method,
    after two suspensions and before anything else is done. *)
Theorem unknown_torrent_is_not_found req params data fuel w :
  playSchema_safeParse params = inr data →
  getTorrent (infoHash data) = None →
  getTorrentUrlBySourceId (sourceId data) (sourceName data) = None →
  play' req params fuel w
  = (Throw (HTTPException NOT_FOUND "Torrent not found"), advance env 2 w).
Proof.
  intros Hp Ht Hu. unfold play. rewrite Hp.
  unfold resolveTorrent, await, throw, ret. rewrite Ht, Hu. reflexivity.
Qed.

(** X4.  The file index is not checked against the files of the torrent:
    with an index that is negative or not below their number, a request
    in stream mode and a [HEAD] request in [hls] mode fail with a
    [TypeError] (no [NOT_FOUND] answer). *)
Theorem file_index_out_of_range_is_a_type_error
    req params data torrent w w1 fuel :
  playSchema_safeParse params = inr data →
  resolveTorrent env NOT_FOUND getTorrent getTorrentUrlBySourceId
    downloadTorrentFile addTorrent data w = (Ok torrent, w1) →
  fileIdx data < 0 ∨ Z.of_nat (length (torrent_files torrent)) <= fileIdx data →
  type data ≠ "hls" ∨ method req = "HEAD" →
  play env ADDON_DIR BAD_REQUEST NOT_FOUND mime_getType Number_toString
    ffprobe Params playSchema_safeParse getTorrent getTorrentUrlBySourceId
    downloadTorrentFile addTorrent parseRangeHeader req params fuel w
  = (Throw TypeError, w1).
Proof.
  intros Hp Hres Hidx Hmode. unfold play. rewrite Hp.
  unfold bind. rewrite Hres.
  assert (at_index (torrent_files torrent) (fileIdx data) = None) as ->.
  { unfold at_index. destruct (Z.ltb_spec (fileIdx data) 0); [done|].
    apply lookup_ge_None. lia. }
  destruct (String.eqb_spec (type data) "hls") as [Ht|Ht].
  - destruct Hmode as [?| ->]; done.
  - done.
Qed.

(** X5.  In [hls] mode the same happens to the first [GET] request of a
    session, but only after the directory of the session has been
    created: the request fails with a [TypeError] and leaves the
    directory behind. *)
Theorem file_index_out_of_range_leaves_directory
    req params data torrent w w1 fuel :
  playSchema_safeParse params = inr data →
  resolveTorrent' data w = (Ok torrent, w1) →
  fileIdx data < 0 ∨ Z.of_nat (length (torrent_files torrent)) <= fileIdx data →
  type data = "hls" →
  method req = "GET" →
  existsSync (outputDirOf ADDON_DIR data) w1 = false →
  writable w1 (outputDirOf ADDON_DIR data) = true →
  play' req params fuel w
  = (Throw TypeError,
     advance env 1
       (mkWorld (files w1) ({[outputDirOf ADDON_DIR data]} ∪ dirs w1)
          (writable w1) (console w1) (spawned w1) (clock w1))).
Proof.
  intros Hp Hres Hidx Ht Hm Hnodir Hwr.
  rewrite (play_hls_get env ADDON_DIR BAD_REQUEST NOT_FOUND mime_getType
             Number_toString ffprobe Params playSchema_safeParse getTorrent
             getTorrentUrlBySourceId downloadTorrentFile addTorrent
             parseRangeHeader req params data fuel w Hp Ht Hm).
  unfold bind at 1. unfold enterSession. unfold bind at 1. rewrite Hres.
  assert (at_index (torrent_files torrent) (fileIdx data) = None) as ->.
  { unfold at_index. destruct (Z.ltb_spec (fileIdx data) 0); [done|].
    apply lookup_ge_None. lia. }
  unfold prepareSession.
  rewrite Hnodir. cbn [negb]. unfold bind at 1. unfold mkdirSync.
  rewrite Hwr. reflexivity.
Qed.

(** X6.  A [GET] request in [hls] mode for a session whose directory
    exists prepares nothing again: whatever its outcome and however long
    it waits, it creates no file and no directory and starts no process
    (the environment being idle). *)
Theorem existing_session_is_not_prepared_again req params data fuel w :
  playSchema_safeParse params = inr data →
  type data = "hls" →
  method req = "GET" →
  existsSync (outputDirOf ADDON_DIR data) w = true →
  let w' := (play_idle req params fuel w).2 in
  files w' = files w ∧ dirs w' = dirs w ∧ spawned w' = spawned w.
Proof.
  intros Hp Ht Hm Hdir. cbv zeta.
  destruct (play_idle req params fuel w) as [res w'] eqn:Hplay. simpl.
  revert Hplay.
  rewrite (play_hls_get idle ADDON_DIR BAD_REQUEST NOT_FOUND mime_getType
             Number_toString ffprobe Params playSchema_safeParse getTorrent
             getTorrentUrlBySourceId downloadTorrentFile addTorrent
             parseRangeHeader req params data fuel w Hp Ht Hm).
  unfold bind at 1. unfold enterSession. unfold bind at 1.
  destruct (resolveTorrent_run idle NOT_FOUND getTorrent
              getTorrentUrlBySourceId downloadTorrentFile addTorrent data)
    as (r & j & Hrun).
  rewrite Hrun, advance_idle.
  destruct r as [torrent|e|]; [|by intros [= <- <-]..].
  unfold prepareSession.
  assert (∀ c, existsSync (outputDirOf ADDON_DIR data)
                 (mkWorld (files w) (dirs w) (writable w) (console w)
                    (spawned w) c) = true) as Hdir'.
  { intros c. exact Hdir. }
  rewrite Hdir'. cbn [negb]. unfold serveMaster. unfold bind at 1.
  destruct (wait_until_exists_run idle
              (JS.path_join [outputDirOf ADDON_DIR data; "master.m3u8"])
              fuel (mkWorld (files w) (dirs w) (writable w) (console w)
                      (spawned w) (j + clock w)))
    as [(k1 & _ & -> & _)|[-> _]]; rewrite advance_idle;
    [|by intros [= <- <-]].
  unfold bind at 1.
  match goal with
  | |- context [wait_until_exists idle ?p fuel ?w0] =>
      destruct (wait_until_exists_run idle p fuel w0)
        as [(k2 & _ & -> & _)|[-> _]]; rewrite advance_idle;
        [|by intros [= <- <-]]
  end.
  unfold bind. rewrite readFile_run, advance_idle. simpl.
  destruct (files w !! _); by intros [= <- <-].
Qed.

End PlayEdges.

Lemma stream_mode_leaves_session_state_witness :
  let w' := (samplePlay idle (λ _, None) (rangeRequest (Some "bytes=0-99"))
               streamParams 0 emptyWorld).2 in
  files w' = files emptyWorld ∧ dirs w' = dirs emptyWorld
  ∧ spawned w' = spawned emptyWorld.
Proof.
  unfold samplePlay.
  eapply stream_mode_leaves_session_state; [reflexivity|discriminate].
Defined.

Lemma head_request_is_answered_at_once_witness :
  ∃ resp,
    samplePlay idle (λ _, None) (mkRequest "HEAD" None None) streamParams 0
      emptyWorld = (Ok resp, advance idle 1 emptyWorld)
    ∧ status resp = 200
    ∧ body resp = BodyNull
    ∧ getHeader "Content-Length" resp = Some "1000"
    ∧ getHeader "Content-Type" resp = Some "video/x-matroska".
Proof.
  unfold samplePlay.
  eapply (head_request_is_answered_at_once idle "/data" 400 404
            (λ _, Some "video/x-matroska") (λ _, "3600") (λ _, None)
            PlayParams inr (λ _, Some (mkTorrent [sampleFile]))
            (λ _ _, None) (λ _, inl TypeError) (λ _, inl TypeError)
            parseRangeHeader_spec (mkRequest "HEAD" None None)
            streamParams streamParams sampleFile).
  - apply sample_reaches. reflexivity.
  - reflexivity.
Defined.

Lemma unknown_torrent_is_not_found_witness :
  play idle "/data" 400 404 (λ _, None) (λ _, "3600") (λ _, None)
    PlayParams inr (λ _, None) (λ _ _, None) (λ _, inl TypeError)
    (λ _, inl TypeError) parseRangeHeader_spec
    (rangeRequest None) hlsParams 0 emptyWorld
  = (Throw (HTTPException 404 "Torrent not found"), advance idle 2 emptyWorld).
Proof.
  eapply unknown_torrent_is_not_found; reflexivity.
Defined.

Lemma file_index_out_of_range_is_a_type_error_witness :
  samplePlay idle (λ _, None) (rangeRequest (Some "bytes=0-99"))
    (mkPlayParams "ncore" "1234" "abcdef" 7 "stream") 0 emptyWorld
  = (Throw TypeError, advance idle 1 emptyWorld).
Proof.
  unfold samplePlay.
  eapply (file_index_out_of_range_is_a_type_error idle "/data" 400 404
            (λ _, Some "video/x-matroska") (λ _, "3600") (λ _, None)
            PlayParams inr (λ _, Some (mkTorrent [sampleFile]))
            (λ _ _, None) (λ _, inl TypeError) (λ _, inl TypeError)
            parseRangeHeader_spec _ _
            (mkPlayParams "ncore" "1234" "abcdef" 7 "stream")
            (mkTorrent [sampleFile])).
  - reflexivity.
  - reflexivity.
  - right. simpl. lia.
  - left. discriminate.
Defined.

Lemma file_index_out_of_range_leaves_directory_witness :
  samplePlay idle (λ _, None) (rangeRequest None)
    (mkPlayParams "ncore" "1234" "abcdef" 7 "hls") 0 emptyWorld
  = (Throw TypeError,
     advance idle 1
       (mkWorld ∅ ({["/data/hls/abcdef/7"]} ∪ ∅) (λ _, true) [] [] 1)).
Proof.
  unfold samplePlay.
  eapply (file_index_out_of_range_leaves_directory idle "/data" 400 404
            (λ _, Some "video/x-matroska") (λ _, "3600") (λ _, None)
            PlayParams inr (λ _, Some (mkTorrent [sampleFile]))
            (λ _ _, None) (λ _, inl TypeError) (λ _, inl TypeError)
            parseRangeHeader_spec _ _
            (mkPlayParams "ncore" "1234" "abcdef" 7 "hls")
            (mkTorrent [sampleFile]) emptyWorld (advance idle 1 emptyWorld)).
  - reflexivity.
  - reflexivity.
  - right. simpl. lia.
  - reflexivity.
  - reflexivity.
  - reflexivity.
  - reflexivity.
Defined.

Lemma existing_session_is_not_prepared_again_witness :
  let w' := (samplePlay idle (λ _, None) (rangeRequest None) hlsParams 5
               startedWorld).2 in
  files w' = files startedWorld ∧ dirs w' = dirs startedWorld
  ∧ spawned w' = spawned startedWorld.
Proof.
  unfold samplePlay.
  eapply existing_session_is_not_prepared_again; reflexivity.
Defined.

(** ** What the probe result is turned into *)

Lemma lit_i_Matches p s :
  Regex.Matches (Regex.lit_i p) s ↔ lowerString s = lowerString p.
Proof.
  revert s. induction p as [|a p IH]; intros s; simpl.
  - split.
    + by inversion 1.
    + destruct s; [constructor|done].
  - split.
    + intros H. inversion H as [| |? ? s1 s2 H1 H2| | | |]; subst.
      apply IH in H2. inversion H1 as [|? b Hb| | | | |]; subst.
      rewrite str_app_cons, str_app_nil_l. simpl. rewrite H2. f_equal.
      by apply Ascii.eqb_eq in Hb.
    + destruct s as [|b s]; [done|]. simpl. intros [= Hb Hs].
      change (String b s) with (String b EmptyString +:+ s).
      constructor; [|by apply IH]. constructor. rewrite Hb.
      apply Ascii.eqb_refl.
Qed.

Lemma index_of_imap {A B} (f : nat → A → B) (g : B → Z) (l : list A) :
  (∀ i x, g (f i x) = Z.of_nat i) →
  g <$> imap f l = seqZ 0 (Z.of_nat (length l)).
Proof.
  intros Hg. apply list_eq. intros i.
  rewrite list_lookup_fmap, list_lookup_imap.
  destruct (l !! i) as [x|] eqn:E; simpl.
  - rewrite Hg, lookup_seqZ_lt; [done|].
    apply lookup_lt_Some in E. lia.
  - rewrite lookup_seqZ_ge; [done|]. apply lookup_ge_None in E. lia.
Qed.

Lemma default_of_imap {A B} (f : nat → A → B) (g : B → bool) (l : list A) :
  (∀ i x, g (f i x) = bool_decide (i = 0%nat)) →
  g <$> imap f l = (λ i, bool_decide (i = 0%nat)) <$> seq 0 (length l).
Proof.
  intros Hg. rewrite fmap_imap.
  rewrite <- (imap_seq_0 l (λ i, bool_decide (i = 0%nat))).
  apply imap_ext. intros i x _. apply Hg.
Qed.

Lemma track_indices_of_probe metadata :
  Audio.index <$> audioStreams (codecInfoOfMetadata metadata)
  = seqZ 0 (Z.of_nat (length (filter (λ s, codec_type s = Some "audio")
                                (streams metadata))))
  ∧ Subtitle.index <$> subtitles (codecInfoOfMetadata metadata)
    = seqZ 0 (Z.of_nat (length (filter (λ s, codec_type s = Some "subtitle")
                                  (streams metadata)))).
Proof.
  unfold codecInfoOfMetadata. cbn [audioStreams subtitles].
  split; by apply index_of_imap.
Qed.

(** X7.  In the result of the probe the audio streams are numbered
    0, 1, 2, ... in the order of the audio streams of the file, and so are
    the subtitles among the subtitle streams; the first of each kind, and
    no other, is the default one. *)
Theorem probe_numbers_tracks_in_order metadata :
  let codecInfo := codecInfoOfMetadata metadata in
  let n_audio :=
    length (filter (λ s, codec_type s = Some "audio") (streams metadata)) in
  let n_subtitle :=
    length (filter (λ s, codec_type s = Some "subtitle")
              (streams metadata)) in
  Audio.index <$> audioStreams codecInfo = seqZ 0 (Z.of_nat n_audio)
  ∧ Audio.default <$> audioStreams codecInfo
    = (λ i, bool_decide (i = 0%nat)) <$> seq 0 n_audio
  ∧ Subtitle.index <$> subtitles codecInfo = seqZ 0 (Z.of_nat n_subtitle)
  ∧ Subtitle.default <$> subtitles codecInfo
    = (λ i, bool_decide (i = 0%nat)) <$> seq 0 n_subtitle.
Proof.
  unfold codecInfoOfMetadata. cbn [audioStreams subtitles]. split_and!.
  - by apply index_of_imap.
  - by apply default_of_imap.
  - by apply index_of_imap.
  - by apply default_of_imap.
Qed.

Lemma named_path_inj dir pre suf i j :
  JS.path_join [dir; pre +:+ JS.toString i +:+ suf]
  = JS.path_join [dir; pre +:+ JS.toString j +:+ suf] →
  i = j.
Proof.
  unfold JS.path_join. rewrite !join_cons. cbn [JS.join].
  intros H. do 3 apply String.app_inj in H.
  apply str_app_inj_r in H. by apply (inj pretty) in H.
Qed.

Lemma named_paths_NoDup {A} dir pre suf (index : A → Z) (l : list A) n :
  index <$> l = seqZ 0 n →
  NoDup ((λ x, JS.path_join [dir; pre +:+ JS.toString (index x) +:+ suf])
         <$> l).
Proof.
  intros Hidx.
  change (NoDup (((λ k, JS.path_join [dir; pre +:+ JS.toString k +:+ suf])
                  ∘ index) <$> l)).
  rewrite list_fmap_compose, Hidx.
  apply NoDup_fmap_2_strong; [|apply NoDup_seqZ].
  intros i j _ _. apply named_path_inj.
Qed.

(** X8.  For a probed file, different tracks never share a file: the
    playlists of the audio streams have pairwise different paths, and so
    have their segment templates, the playlists of the subtitles and the
    subtitle files. *)
Theorem probed_tracks_have_distinct_files metadata outputDir :
  let codecInfo := codecInfoOfMetadata metadata in
  NoDup ((λ a, JS.path_join
                 [outputDir;
                  "audio_" +:+ JS.toString (Audio.index a) +:+ ".m3u8"])
         <$> audioStreams codecInfo)
  ∧ NoDup ((λ a, JS.path_join
                   [outputDir;
                    "audio_" +:+ JS.toString (Audio.index a) +:+ "_%03d.ts"])
           <$> audioStreams codecInfo)
  ∧ NoDup ((λ s, JS.path_join
                   [outputDir;
                    "subtitles_" +:+ JS.toString (Subtitle.index s)
                    +:+ ".m3u8"])
           <$> subtitles codecInfo)
  ∧ NoDup ((λ s, JS.path_join
                   [outputDir;
                    "subtitles_" +:+ JS.toString (Subtitle.index s)
                    +:+ ".vtt"])
           <$> subtitles codecInfo).
Proof.
  intros codecInfo.
  destruct (track_indices_of_probe metadata) as [Ha Hs].
  split_and!; eapply named_paths_NoDup; eassumption.
Qed.



Lemma undefined_is_not_forced :
  Regex.test (Regex.lit_i "forced") "undefined" = false.
Proof. reflexivity. Qed.

(** X10.  The descriptor of the [i]-th subtitle stream of the file has the
    index [i]; its title is the title tag of the stream, or [i + 1] in
    decimal when the stream has no title or an empty one; its language is
    the language tag, or [unknown]; it is forced exactly when the stream
    has a title that contains [forced] in any mix of upper and lower
    case. *)
Theorem subtitle_descriptor_of_stream metadata i s :
  filter (λ s, codec_type s = Some "subtitle") (streams metadata) !! i
  = Some s →
  ∃ d,
    subtitles (codecInfoOfMetadata metadata) !! i = Some d
    ∧ Subtitle.index d = Z.of_nat i
    ∧ Subtitle.title d
      = match tags s ≫= tag_title with
        | Some t =>
            if String.eqb t EmptyString
            then JS.toString (Z.of_nat i + 1) else t
        | None => JS.toString (Z.of_nat i + 1)
        end
    ∧ Subtitle.language d
      = match tags s ≫= tag_language with
        | Some t => if String.eqb t EmptyString then "unknown" else t
        | None => "unknown"
        end
    ∧ (Subtitle.forced d = true ↔
       ∃ t pre mid post,
         tags s ≫= tag_title = Some t
         ∧ t = pre +:+ mid +:+ post ∧ lowerString mid = "forced").
Proof.
  intros Hs. unfold codecInfoOfMetadata. cbn [subtitles].
  rewrite list_lookup_imap, Hs. cbn [fmap option_fmap option_map].
  eexists. split; [reflexivity|]. cbn [Subtitle.index Subtitle.title
    Subtitle.language Subtitle.forced].
  split_and!; [done..|].
  destruct (tags s ≫= tag_title) as [t|].
  - change (default "undefined" (Some t)) with t.
    rewrite test_Found. unfold Regex.Found. split.
    + intros (pre & mid & post & -> & Hm%lit_i_Matches).
      by exists (pre +:+ mid +:+ post), pre, mid, post.
    + intros (t' & pre & mid & post & [= <-] & -> & Hm).
      exists pre, mid, post. split; [done|]. by apply lit_i_Matches.
  - change (default "undefined" None) with "undefined".
    rewrite undefined_is_not_forced. split; [done|].
    by intros (? & ? & ? & ? & ? & _).
Qed.

Lemma subtitle_descriptor_of_stream_witness :
  ∃ d,
    subtitles (codecInfoOfMetadata sampleMetadata) !! 0%nat = Some d
    ∧ Subtitle.index d = 0
    ∧ Subtitle.title d = "English [FORCED]"
    ∧ Subtitle.language d = "eng"
    ∧ (Subtitle.forced d = true ↔
       ∃ t pre mid post,
         Some "English [FORCED]" = Some t
         ∧ t = pre +:+ mid +:+ post ∧ lowerString mid = "forced").
Proof.
  apply (subtitle_descriptor_of_stream sampleMetadata 0
           (mkProbeStream (Some "subtitle") (Some "subrip") None
              (Some (mkTags (Some "English [FORCED]") (Some "eng"))))).
  reflexivity.
Defined.

Lemma find_video_none (l : list ProbeStream) :
  Forall (λ s, codec_type s ≠ Some "video") l →
  find (λ s, bool_decide (codec_type s = Some "video")) l = None.
Proof.
  induction 1 as [|s l Hs _ IH]; [done|]. simpl.
  by rewrite bool_decide_eq_false_2.
Qed.

(** X11.  When the probe finds no video stream, the video process is
    started all the same, and it re-encodes: its arguments select
    [libx264] with the [ultrafast] preset. *)
Theorem no_video_stream_is_reencoded metadata outputDir basePath :
  Forall (λ s, codec_type s ≠ Some "video") (streams metadata) →
  let args := hlsArgs outputDir basePath (codecInfoOfMetadata metadata) in
  videoCodec (codecInfoOfMetadata metadata) = None
  ∧ Encoder.argAfter "-c:v" args = Some "libx264"
  ∧ Encoder.argAfter "-preset" args = Some "ultrafast".
Proof.
  intros Hno.
  assert (videoCodec (codecInfoOfMetadata metadata) = None) as Hv.
  { unfold codecInfoOfMetadata. cbn [videoCodec].
    by rewrite (find_video_none _ Hno). }
  split; [done|]. unfold hlsArgs. rewrite Hv. done.
Qed.

Lemma no_video_stream_is_reencoded_witness :
  let args := hlsArgs "out" EmptyString
                (codecInfoOfMetadata
                   (mkMetadata (Some (90 # 1)%Q)
                      [mkProbeStream (Some "audio") (Some "mp3") None None]))
  in
  videoCodec (codecInfoOfMetadata
                (mkMetadata (Some (90 # 1)%Q)
                   [mkProbeStream (Some "audio") (Some "mp3") None None]))
  = None
  ∧ Encoder.argAfter "-c:v" args = Some "libx264"
  ∧ Encoder.argAfter "-preset" args = Some "ultrafast".
Proof.
  apply (no_video_stream_is_reencoded
           (mkMetadata (Some (90 # 1)%Q)
              [mkProbeStream (Some "audio") (Some "mp3") None None])
           "out" EmptyString).
  repeat constructor. discriminate.
Defined.

(** ** The master playlist *)

Lemma subtitle_name_condition (s : Subtitle.t) :
  String.eqb
    (Subtitle.title s +:+ Subtitle.language s
     +:+ (if Subtitle.forced s then "true" else "false"))
    EmptyString = false.
Proof.
  apply String.eqb_neq. intros H. apply (f_equal String.length) in H.
  rewrite !str_length_app in H. destruct (Subtitle.forced s); simpl in H; lia.
Qed.

(** X12.  The master playlist is [#EXTM3U], then one line for every
    subtitle, then one line for every audio stream, both in the order of
    the probe result, then the variant line and [hls/video.m3u8].  The
    line of a subtitle names its playlist [hls/subtitles_k.m3u8], and its
    [NAME] attribute is [ (Forced)] whatever the title of the subtitle and
    whether it is forced or not: the title does not occur in the line. *)
Theorem master_playlist_lists_every_track codecInfo :
  let lines := master_m3u8Content codecInfo in
  let n_subs := length (subtitles codecInfo) in
  length lines = (3 + n_subs + length (audioStreams codecInfo))%nat
  ∧ lines !! 0%nat = Some "#EXTM3U"
  ∧ (∀ i s, subtitles codecInfo !! i = Some s →
       lines !! (1 + i)%nat
       = Some ("#EXT-X-MEDIA:TYPE=SUBTITLES,GROUP-ID=" +:+ dq +:+ dq
               +:+ ",NAME=" +:+ dq +:+ " (Forced)" +:+ dq
               +:+ ",LANGUAGE=" +:+ dq +:+ Subtitle.language s +:+ dq
               +:+ ",DEFAULT="
               +:+ (if Subtitle.default s then "YES" else "NO")
               +:+ ",AUTOSELECT=NO,FORCED="
               +:+ (if Subtitle.forced s then "YES" else "NO")
               +:+ ",URI=" +:+ dq +:+ "hls/subtitles_"
               +:+ JS.toString (Subtitle.index s) +:+ ".m3u8" +:+ dq))
  ∧ (∀ j a, audioStreams codecInfo !! j = Some a →
       lines !! (1 + n_subs + j)%nat
       = Some ("#EXT-X-MEDIA:TYPE=AUDIO,GROUP-ID=" +:+ dq +:+ dq
               +:+ ",NAME=" +:+ dq +:+ Audio.name a +:+ dq
               +:+ ",DEFAULT=" +:+ (if Audio.default a then "YES" else "NO")
               +:+ ",AUTOSELECT=YES,LANGUAGE=" +:+ dq +:+ Audio.language a
               +:+ dq +:+ ",URI=" +:+ dq +:+ "hls/audio_"
               +:+ JS.toString (Audio.index a) +:+ ".m3u8" +:+ dq))
  ∧ last lines = Some "hls/video.m3u8".
Proof.
  unfold master_m3u8Content. split_and!.
  - rewrite !length_app, !length_fmap. simpl. lia.
  - done.
  - intros i s Hs. cbn [app]. rewrite lookup_cons_ne_0 by lia.
    replace (Nat.pred (1 + i)) with i by lia.
    rewrite lookup_app_l by (rewrite length_fmap; by eapply lookup_lt_Some).
    rewrite list_lookup_fmap, Hs. cbn [fmap option_fmap option_map].
    by rewrite subtitle_name_condition.
  - intros j a Ha. cbn [app]. rewrite lookup_cons_ne_0 by lia.
    replace (Nat.pred (1 + length (subtitles codecInfo) + j))
      with (length (subtitles codecInfo) + j)%nat by lia.
    rewrite lookup_app_r by (rewrite length_fmap; lia).
    rewrite length_fmap.
    replace (length (subtitles codecInfo) + j - length (subtitles codecInfo))%nat
      with j by lia.
    rewrite lookup_app_l by (rewrite length_fmap; by eapply lookup_lt_Some).
    by rewrite list_lookup_fmap, Ha.
  - rewrite !(assoc_L (++)). by rewrite last_app.
Qed.

(** ** The audio and subtitle processes *)

(** X13.  The process of an audio stream selects that stream with
    [-map 0:a:k], copies it ([-c:a copy]) exactly when its codec is [aac]
    and otherwise encodes it to [aac]; in both cases it mixes down to two
    channels. *)
Theorem audio_job_copies_iff_aac outputDir audio :
  ∃ rest,
    head rest = Some "-ac" ∧ rest !! 1%nat = Some "2"
    ∧ (Audio.codec audio = "aac"
       ∧ audioArgs outputDir audio
         = [ "-i"; "pipe:0"; "-map";
             "0:a:" +:+ JS.toString (Audio.index audio); "-c:a"; "copy" ]
           ++ rest
       ∨ Audio.codec audio ≠ "aac"
         ∧ audioArgs outputDir audio
           = [ "-i"; "pipe:0"; "-map";
               "0:a:" +:+ JS.toString (Audio.index audio); "-c:a"; "aac" ]
             ++ rest).
Proof.
  exists (drop 6 (audioArgs outputDir audio)). unfold audioArgs.
  destruct (String.eqb_spec (Audio.codec audio) "aac") as [Hc|Hc].
  - split_and!; [done..|]. by left.
  - split_and!; [done..|]. by right.
Qed.

(** X14.  [generateHLS] starts exactly one process per track, the video
    process first, then one per audio stream, then one per subtitle, in
    the order of the probe result; it does not suspend, and it touches no
    file, no directory and not the console. *)
Theorem generateHLS_starts_one_process_per_track
    outputDir basePath codecInfo w :
  ∃ w',
    generateHLS outputDir basePath codecInfo w = (Ok (), w')
    ∧ take (length (spawned w)) (spawned w') = spawned w
    ∧ kind <$> drop (length (spawned w)) (spawned w')
      = VideoJob
        :: ((λ a, AudioJob (Audio.index a)) <$> audioStreams codecInfo)
        ++ ((λ s, SubtitleJob (Subtitle.index s)) <$> subtitles codecInfo)
    ∧ files w' = files w ∧ dirs w' = dirs w
    ∧ console w' = console w ∧ clock w' = clock w.
Proof.
  eexists. split; [apply generateHLS_spawned|]. cbn [spawned files dirs
    console clock].
  split_and!; [|  |done..].
  - by rewrite take_app_length.
  - rewrite drop_app_length. cbn [fmap list_fmap]. f_equal.
    rewrite fmap_app, <- !list_fmap_compose. done.
Qed.

(** ** Subtitles, from the playlist to the patched file *)

Lemma subtitle_file_slash_free index :
  all_chars (not_char "/") ("subtitles_" +:+ JS.toString index +:+ ".vtt")
  = true.
Proof.
  rewrite !all_chars_app, toString_all_chars by by_digit_cases. done.
Qed.

Lemma startsWith_app p s : JS.startsWith (p +:+ s) p = true.
Proof.
  unfold JS.startsWith. induction p as [|a p IH]; [by destruct s|].
  rewrite str_app_cons. simpl. by destruct (ascii_dec a a).
Qed.

(** X15.  The playlist planned for a subtitle has a single segment entry,
    the file name [subtitles_k.vtt], followed by the end-of-list marker;
    that is the name of the file the subtitle process is told to write in
    the directory of the session.  (The environment is idle and every
    path can be written.) *)
Theorem subtitle_playlist_names_the_extracted_file
    Number_toString outputDir codecInfo subtitle w :
  (∀ p, writable w p = true) →
  subtitle ∈ subtitles codecInfo →
  let name := "subtitles_" +:+ JS.toString (Subtitle.index subtitle)
              +:+ ".vtt" in
  ∃ w' lines,
    generatePreGeneratedM3U8Subtitle idle Number_toString outputDir codecInfo w
    = (Ok (), w')
    ∧ files w' !! JS.path_join
                    [outputDir;
                     "subtitles_" +:+ JS.toString (Subtitle.index subtitle)
                     +:+ ".m3u8"]
      = Some (JS.join nl lines)
    ∧ segmentEntries lines = [name]
    ∧ last lines = Some "#EXT-X-ENDLIST"
    ∧ last (subtitleArgs outputDir subtitle)
      = Some (JS.path_join [outputDir; name])
    ∧ JS.basename (JS.path_join [outputDir; name]) = name.
Proof.
  intros Hw Hin name. unfold generatePreGeneratedM3U8Subtitle.
  edestruct (for_of_writeFile_idle
               (λ s : Subtitle.t,
                  JS.path_join [outputDir;
                                "subtitles_" +:+ JS.toString (Subtitle.index s)
                                +:+ ".m3u8"])
               (λ s : Subtitle.t,
                  JS.join nl
                    [ "#EXTM3U"; "#EXT-X-VERSION:3";
                      "#EXT-X-TARGETDURATION:"
                      +:+ JS.toString (Math_round (duration codecInfo));
                      "#EXT-X-MEDIA-SEQUENCE:0";
                      "#EXTINF:" +:+ Number_toString (duration codecInfo)
                      +:+ ",";
                      "subtitles_" +:+ JS.toString (Subtitle.index s)
                      +:+ ".vtt";
                      "#EXT-X-ENDLIST" ])
               (subtitles codecInfo) w) as (w' & Hrun & Hfiles & _).
  { intros x _. apply Hw. }
  exists w'. eexists. split; [exact Hrun|]. split.
  { apply Hfiles; [done|]. intros y _ Hp. apply named_path_inj in Hp.
    by rewrite Hp. }
  split_and!; [|reflexivity..|].
  - cbn [segmentEntries].
    change (JS.startsWith "#EXTM3U" "#EXTINF:") with false.
    change (JS.startsWith "#EXT-X-VERSION:3" "#EXTINF:") with false.
    change (JS.startsWith "#EXT-X-MEDIA-SEQUENCE:0" "#EXTINF:") with false.
    change (JS.startsWith "#EXT-X-ENDLIST" "#EXTINF:") with false.
    change (JS.startsWith
              ("#EXT-X-TARGETDURATION:"
               +:+ JS.toString (Math_round (duration codecInfo)))
              "#EXTINF:") with false.
    by rewrite startsWith_app.
  - apply basename_join, subtitle_file_slash_free.
Qed.

Lemma subtitle_playlist_names_the_extracted_file_witness :
  let subtitle := Subtitle.mk 0 "English" "eng" false true in
  let codecInfo :=
    mkCodecInfo (Some "h264") None [subtitle] [] (25 # 1)%Q in
  ∃ w' lines,
    generatePreGeneratedM3U8Subtitle idle (λ _, "25") "out" codecInfo
      emptyWorld = (Ok (), w')
    ∧ files w' !! JS.path_join ["out"; "subtitles_0.m3u8"]
      = Some (JS.join nl lines)
    ∧ segmentEntries lines = ["subtitles_0.vtt"]
    ∧ last lines = Some "#EXT-X-ENDLIST"
    ∧ last (subtitleArgs "out" subtitle)
      = Some (JS.path_join ["out"; "subtitles_0.vtt"])
    ∧ JS.basename (JS.path_join ["out"; "subtitles_0.vtt"])
      = "subtitles_0.vtt".
Proof.
  apply (subtitle_playlist_names_the_extracted_file (λ _, "25") "out"
           (mkCodecInfo (Some "h264") None
              [Subtitle.mk 0 "English" "eng" false true] [] (25 # 1)%Q)
           (Subtitle.mk 0 "English" "eng" false true) emptyWorld).
  - reflexivity.
  - apply elem_of_cons. left. reflexivity.
Defined.

(** X16.  When a subtitle process exits, its file is patched with the
    timestamp map if the exit code is 0 and is left as it is otherwise;
    no error reaches the caller.  (The file exists and can be written,
    and the environment is idle.) *)
Theorem subtitle_is_patched_only_on_success
    outputDir subtitle code content w :
  let vttPath :=
    JS.path_join [outputDir;
                  "subtitles_" +:+ JS.toString (Subtitle.index subtitle)
                  +:+ ".vtt"] in
  files w !! vttPath = Some content →
  writable w vttPath = true →
  ∃ w',
    onSubtitleExit idle outputDir subtitle code w = (Ok (), w')
    ∧ files w'
      = if code =? 0
        then <[vttPath := JS.join nl (patchedLines content)]> (files w)
        else files w.
Proof.
  intros vttPath Hf Hw. unfold onSubtitleExit. unfold bind at 1.
  unfold console_log at 1. destruct (code =? 0).
  - unfold bind at 1. unfold console_log at 1. fold vttPath.
    rewrite (patch_idle_run vttPath _ content) by done.
    eexists. split; reflexivity.
  - eexists. split; reflexivity.
Qed.

Lemma subtitle_is_patched_only_on_success_witness :
  ∃ w',
    onSubtitleExit idle "out" (Subtitle.mk 0 "English" "eng" false true) 1
      (vttWorld vttWithHeader) = (Ok (), w')
    ∧ files w' = files (vttWorld vttWithHeader).
Proof.
  apply (subtitle_is_patched_only_on_success "out"
           (Subtitle.mk 0 "English" "eng" false true) 1 vttWithHeader
           (vttWorld vttWithHeader)).
  - reflexivity.
  - reflexivity.
Defined.

(** X17.  When the subtitle file cannot be read, or cannot be written
    back, the patch changes no file, writes one error entry naming the
    path to the console, and returns normally.  (The environment is
    idle.) *)
Theorem failed_patch_is_logged_not_raised p w :
  files w !! p = None ∨ writable w p = false →
  ∃ w',
    patchVttWithTimestampMap idle p w = (Ok (), w')
    ∧ files w' = files w
    ∧ console w'
      = console w
        ++ [ConsoleError "[Subtitle Timestamp Patch Error]"
              (Some (FsError p))].
Proof.
  intros H.
  unfold patchVttWithTimestampMap, try_catch, readFile, writeFile, yield,
    idle, console_error.
  unfold bind. simpl.
  destruct (files w !! p) as [content|] eqn:Hf; simpl.
  - destruct H as [?|Hw]; [done|]. rewrite Hw. eexists. by repeat split.
  - eexists. by repeat split.
Qed.

Lemma failed_patch_is_logged_not_raised_witness :
  ∃ w',
    patchVttWithTimestampMap idle "out/subtitles_1.vtt"
      (vttWorld vttWithHeader) = (Ok (), w')
    ∧ files w' = files (vttWorld vttWithHeader)
    ∧ console w'
      = console (vttWorld vttWithHeader)
        ++ [ConsoleError "[Subtitle Timestamp Patch Error]"
              (Some (FsError "out/subtitles_1.vtt"))].
Proof.
  apply (failed_patch_is_logged_not_raised "out/subtitles_1.vtt"
           (vttWorld vttWithHeader)).
  left. reflexivity.
Defined.

(** ** The first request of a session *)

Lemma for_of_writeFile_idle_fields {A} (path content : A → string)
    (l : list A) w :
  (∀ p, writable w p = true) →
  ∃ w',
    for_of l (λ x, writeFile idle (path x) (content x)) w = (Ok (), w')
    ∧ writable w' = writable w ∧ dirs w' = dirs w
    ∧ spawned w' = spawned w ∧ console w' = console w.
Proof.
  revert w. induction l as [|x l IH]; intros w Hw.
  - by exists w.
  - cbn [for_of]. unfold bind. rewrite writeFile_idle by apply Hw.
    destruct (IH (mkWorld (<[path x := content x]> (files w)) (dirs w)
                    (writable w) (console w) (spawned w) (S (clock w))))
      as (w' & Hrun & ? & ? & ? & ?); [exact Hw|].
    by exists w'.
Qed.

Lemma path_join_inj dir n1 n2 :
  JS.path_join [dir; n1] = JS.path_join [dir; n2] → n1 = n2.
Proof.
  unfold JS.path_join. rewrite !join_cons. cbn [JS.join].
  intros H. by do 2 apply String.app_inj in H.
Qed.

(** X18.  The first [GET] request of a session whose probe succeeds
    leaves the session prepared: the directory exists, [master.m3u8] and
    [video.m3u8] and the playlist of every audio stream hold the planned
    texts, and one process per track has been started; nothing is
    thrown.  (Every path can be written and the environment is
    idle.) *)
Theorem first_request_prepares_session
    Number_toString ffprobe outputDir f metadata w :
  existsSync outputDir w = false →
  (∀ p, writable w p = true) →
  ffprobe f = Some metadata →
  let codecInfo := codecInfoOfMetadata metadata in
  ∃ w',
    prepareSession idle Number_toString ffprobe outputDir (Some f) w
    = (Ok (), w')
    ∧ outputDir ∈ dirs w'
    ∧ files w' !! JS.path_join [outputDir; "master.m3u8"]
      = Some (JS.join nl (master_m3u8Content codecInfo))
    ∧ files w' !! JS.path_join [outputDir; "video.m3u8"]
      = Some (JS.join nl (video_m3u8Content codecInfo))
    ∧ (∀ audio, audio ∈ audioStreams codecInfo →
         files w' !! JS.path_join
                       [outputDir;
                        "audio_" +:+ JS.toString (Audio.index audio)
                        +:+ ".m3u8"]
         = Some (JS.join nl (audio_m3u8Content codecInfo audio)))
    ∧ spawned w'
      = spawned w
        ++ mkProcess VideoJob (hlsArgs outputDir EmptyString codecInfo)
           :: ((λ audio, mkProcess (AudioJob (Audio.index audio))
                           (audioArgs outputDir audio))
               <$> audioStreams codecInfo)
        ++ ((λ subtitle, mkProcess (SubtitleJob (Subtitle.index subtitle))
                           (subtitleArgs outputDir subtitle))
            <$> subtitles codecInfo).
Proof.
  intros Hnodir Hw Hprobe codecInfo.
  unfold prepareSession. rewrite Hnodir. cbn [negb].
  unfold bind at 1. unfold mkdirSync. rewrite Hw.
  unfold bind at 1. unfold getFileCodecInfoFromStream. unfold bind at 1.
  rewrite yield_run, Hprobe, advance_idle. unfold ret at 1.
  fold codecInfo. cbn [files dirs writable console spawned clock].
  set (w1 := mkWorld (files w) ({[outputDir]} ∪ dirs w) (writable w)
               (console w) (spawned w) (1 + clock w)).
  (* the audio playlists *)
  unfold generatePreGeneratedM3U8Audio.
  destruct (for_of_writeFile_idle
              (λ a : Audio.t,
                 JS.path_join [outputDir;
                               "audio_" +:+ JS.toString (Audio.index a)
                               +:+ ".m3u8"])
              (λ a, JS.join nl (audio_m3u8Content codecInfo a))
              (audioStreams codecInfo) w1) as (w2 & Hrun2 & Hin2 & _).
  { intros x _. apply Hw. }
  destruct (for_of_writeFile_idle_fields
              (λ a : Audio.t,
                 JS.path_join [outputDir;
                               "audio_" +:+ JS.toString (Audio.index a)
                               +:+ ".m3u8"])
              (λ a, JS.join nl (audio_m3u8Content codecInfo a))
              (audioStreams codecInfo) w1 Hw)
    as (w2' & Hrun2' & Hw2 & Hd2 & Hs2 & Hc2).
  rewrite Hrun2 in Hrun2'. injection Hrun2' as <-.
  unfold bind at 1. rewrite Hrun2.
  (* the subtitle playlists *)
  unfold generatePreGeneratedM3U8Subtitle.
  match goal with
  | |- context [for_of (subtitles codecInfo)
                  (λ s, writeFile idle (@?path s) (@?content s))] =>
      destruct (for_of_writeFile_idle path content (subtitles codecInfo) w2)
        as (w3 & Hrun3 & _ & Hout3);
        [intros x _; rewrite Hw2; apply Hw|];
      destruct (for_of_writeFile_idle_fields path content
                  (subtitles codecInfo) w2)
        as (w3' & Hrun3' & Hw3 & Hd3 & Hs3 & Hc3);
        [intros p; rewrite Hw2; apply Hw|]
  end.
  rewrite Hrun3 in Hrun3'. injection Hrun3' as <-.
  unfold bind at 1. rewrite Hrun3.
  (* the video and master playlists, and the processes *)
  unfold bind at 1. unfold generatePreGeneratedM3U8Video.
  rewrite writeFile_idle by (rewrite Hw3, Hw2; apply Hw).
  unfold bind at 1. unfold generatePreGeneratedM3U8Master.
  rewrite writeFile_idle by (cbn [writable]; rewrite Hw3, Hw2; apply Hw).
  rewrite generateHLS_spawned. cbn [files dirs writable console spawned clock].
  eexists. split; [reflexivity|].
  cbn [files dirs writable console spawned clock]. split_and!.
  - rewrite Hd3, Hd2. unfold w1. simpl. apply elem_of_union. left.
    by apply elem_of_singleton.
  - apply lookup_insert_eq.
  - rewrite lookup_insert_ne; [apply lookup_insert_eq|].
    intros H%path_join_inj. discriminate.
  - intros audio Hin.
    rewrite lookup_insert_ne by (intros H%path_join_inj; discriminate).
    rewrite lookup_insert_ne by (intros H%path_join_inj; discriminate).
    rewrite Hout3.
    + apply Hin2; [done|]. intros y _ Hp. apply audio_path_inj in Hp.
      unfold audio_m3u8Content. by rewrite Hp.
    + intros s _ H%path_join_inj. discriminate.
  - by rewrite Hs3, Hs2.
Qed.

Lemma first_request_prepares_session_witness :
  let codecInfo := codecInfoOfMetadata sampleMetadata in
  ∃ w',
    prepareSession idle (λ _, "3600") (λ _, Some sampleMetadata) "out"
      (Some sampleFile) emptyWorld = (Ok (), w')
    ∧ "out" ∈ dirs w'
    ∧ files w' !! JS.path_join ["out"; "master.m3u8"]
      = Some (JS.join nl (master_m3u8Content codecInfo))
    ∧ files w' !! JS.path_join ["out"; "video.m3u8"]
      = Some (JS.join nl (video_m3u8Content codecInfo))
    ∧ (∀ audio, audio ∈ audioStreams codecInfo →
         files w' !! JS.path_join
                       ["out";
                        "audio_" +:+ JS.toString (Audio.index audio)
                        +:+ ".m3u8"]
         = Some (JS.join nl (audio_m3u8Content codecInfo audio)))
    ∧ spawned w'
      = spawned emptyWorld
        ++ mkProcess VideoJob (hlsArgs "out" EmptyString codecInfo)
           :: ((λ audio, mkProcess (AudioJob (Audio.index audio))
                           (audioArgs "out" audio))
               <$> audioStreams codecInfo)
        ++ ((λ subtitle, mkProcess (SubtitleJob (Subtitle.index subtitle))
                           (subtitleArgs "out" subtitle))
            <$> subtitles codecInfo).
Proof.
  apply (first_request_prepares_session (λ _, "3600")
           (λ _, Some sampleMetadata) "out" sampleFile sampleMetadata
           emptyWorld).
  - reflexivity.
  - reflexivity.
  - reflexivity.
Defined.

(** ** The patterns of [getStreamsForMedia] *)

Lemma Found_lit p s : Regex.Found (Regex.lit p) s ↔ JS.includes s p = true.
Proof.
  rewrite includes_spec. unfold Regex.Found. split.
  - intros (pre & mid & post & -> & ->%lit_Matches). by exists pre, post.
  - intros (pre & post & ->). exists pre, p, post. split; [done|].
    by apply lit_Matches.
Qed.

Lemma Found_AndroidTV_Android s :
  Regex.Found re_AndroidTV s → Regex.Found re_Android s.
Proof.
  intros (pre & mid & post & -> & Hm). unfold re_AndroidTV in Hm.
  inversion Hm as [| |? ? s1 s2 H1 H2| | | |]; subst.
  apply (lit_Matches "Android") in H1 as ->.
  exists pre, "Android", (s2 +:+ post). split; [|by apply lit_Matches].
  by rewrite !str_app_assoc.
Qed.

Lemma Found_GoogleTV s :
  Regex.Found re_GoogleTV s ↔
  ∃ pre c post,
    s = pre +:+ "Google" +:+ String c "TV" +:+ post
    ∧ Regex.isWhiteSpace c = true.
Proof.
  unfold Regex.Found, re_GoogleTV. split.
  - intros (pre & mid & post & -> & Hm).
    inversion Hm as [| |? ? s1 s2 H1 H2| | | |]; subst.
    apply (lit_Matches "Google") in H1 as ->.
    inversion H2 as [| |? ? s3 s4 H3 H4| | | |]; subst.
    apply (lit_Matches "TV") in H4 as ->.
    inversion H3 as [|? c Hc| | | | |]; subst.
    exists pre, c, post. split; [|done].
    by rewrite !str_app_assoc.
  - intros (pre & c & post & -> & Hc).
    exists pre, ("Google" +:+ String c "TV"), post. split.
    + by rewrite !str_app_assoc.
    + constructor; [by apply lit_Matches|].
      change (String c "TV") with (String c EmptyString +:+ "TV").
      constructor; [by constructor | by apply lit_Matches].
Qed.

Lemma streamTypeFor_tests userAgent :
  streamTypeFor userAgent = "hls" ↔
  userAgent = None
  ∨ ∃ ua, userAgent = Some ua
          ∧ (Regex.test re_AndroidTV ua = true
             ∨ Regex.test re_GoogleTV ua = true
             ∨ Regex.test re_CrKey ua = true
             ∨ Regex.test re_Android ua = true).
Proof.
  unfold streamTypeFor. destruct userAgent as [ua|].
  - split.
    + intros H. right. exists ua. split; [done|].
      destruct (Regex.test re_AndroidTV ua), (Regex.test re_GoogleTV ua),
        (Regex.test re_CrKey ua), (Regex.test re_Android ua);
        simpl in H; try done; tauto.
    + intros [?|(ua' & [= <-] & H)]; [done|].
      destruct (Regex.test re_AndroidTV ua), (Regex.test re_GoogleTV ua),
        (Regex.test re_CrKey ua), (Regex.test re_Android ua);
        simpl; try done; destruct H as [?|[?|[?|?]]]; done.
  - split; [by left | done].
Qed.

(** X19.  The test of the [User-Agent] against [Android.*TV] never
    decides: the delivery type is [hls] exactly when the header is absent,
    or contains [Android], or contains [CrKey], or contains [Google] and
    [TV] separated by one white-space character. *)
Theorem delivery_type_by_substrings userAgent :
  streamTypeFor userAgent = "hls" ↔
  userAgent = None
  ∨ ∃ ua, userAgent = Some ua
          ∧ (JS.includes ua "Android" = true
             ∨ JS.includes ua "CrKey" = true
             ∨ ∃ pre c post,
                 ua = pre +:+ "Google" +:+ String c "TV" +:+ post
                 ∧ Regex.isWhiteSpace c = true).
Proof.
  rewrite streamTypeFor_tests. split.
  - intros [?|(ua & -> & H)]; [by left|]. right. exists ua. split; [done|].
    rewrite !test_Found in H. destruct H as [H|[H|[H|H]]].
    + left. by apply Found_lit, Found_AndroidTV_Android.
    + right. right. by apply Found_GoogleTV.
    + right. left. by apply Found_lit.
    + left. by apply Found_lit.
  - intros [?|(ua & -> & H)]; [by left|]. right. exists ua. split; [done|].
    rewrite !test_Found. destruct H as [H|[H|H]].
    + right. right. right. by apply Found_lit.
    + right. right. left. by apply Found_lit.
    + right. left. by apply Found_GoogleTV.
Qed.

(** ** The streams of [getStreamsForMedia] *)

Section StreamsOrder.

Context (env : nat → World → World) (BAD_REQUEST : Z)
  (Params User TorrentDetails Stream : Type)
  (streamQuerySchema_safeParse : Params → string + StreamQuery)
  (getUserByDeviceTokenOrThrow : string → Error + User)
  (getTorrentsForImdbId :
     string → string → option Z → option Z → Error + list TorrentDetails)
  (orderTorrents :
     list TorrentDetails → option Z → option Z → User →
     Error + list TorrentDetails)
  (preferredLanguage : User → string)
  (convertTorrentToStream : ConvertArgs TorrentDetails → Stream).

(** X20.  When the parameters are accepted, the user is known and the
    torrents are found and ordered, the answer has one stream per ordered
    torrent, in that order; each is converted with the device token, the
    season and the episode of the request and the preferred language of
    the user, and the first one, and no other, is marked as
    recommended. *)
Theorem streams_follow_the_ordered_torrents
    req params data user torrents ordered w :
  streamQuerySchema_safeParse params = inr data →
  getUserByDeviceTokenOrThrow (q_deviceToken data) = inr user →
  getTorrentsForImdbId (q_imdbId data) (q_type data) (q_season data)
    (q_episode data) = inr torrents →
  orderTorrents torrents (q_season data) (q_episode data) user
  = inr ordered →
  ∃ streams,
    getStreamsForMedia env BAD_REQUEST Params User TorrentDetails Stream
      streamQuerySchema_safeParse getUserByDeviceTokenOrThrow
      getTorrentsForImdbId orderTorrents preferredLanguage
      convertTorrentToStream req params w = (Ok streams, advance env 3 w)
    ∧ length streams = length ordered
    ∧ ∀ i torrent,
        ordered !! i = Some torrent →
        streams !! i
        = Some (convertTorrentToStream
                  (mkConvertArgs _ torrent (bool_decide (i = 0%nat))
                     (q_deviceToken data) (q_season data) (q_episode data)
                     (preferredLanguage user)
                     (streamTypeFor (header_userAgent req)))).
Proof.
  intros Hp Hu Ht Ho. unfold getStreamsForMedia. rewrite Hp.
  unfold await, yield, throw, ret. unfold bind. simpl.
  rewrite Hu. simpl. rewrite Ht. simpl. rewrite Ho. simpl.
  eexists. split; [reflexivity|]. split.
  - unfold convertCalls. by rewrite length_fmap, length_imap.
  - intros i torrent Hi. unfold convertCalls.
    by rewrite list_lookup_fmap, list_lookup_imap, Hi.
Qed.

End StreamsOrder.

Lemma streams_follow_the_ordered_torrents_witness :
  ∃ streams,
    sampleGetStreams androidRequest emptyWorld
    = (Ok streams, advance idle 3 emptyWorld)
    ∧ length streams = length sampleTorrents
    ∧ ∀ i torrent,
        sampleTorrents !! i = Some torrent →
        streams !! i
        = Some (mkConvertArgs _ torrent (bool_decide (i = 0%nat))
                  "device-token" None None "en" "hls").
Proof.
  apply (streams_follow_the_ordered_torrents idle 400 () () string
           (ConvertArgs string)
           (λ _, inr sampleQuery) (λ _, inr ())
           (λ _ _ _ _, inr sampleTorrents)
           (λ t _ _ _, inr t) (λ _, "en") (λ c, c)
           androidRequest () sampleQuery () sampleTorrents sampleTorrents
           emptyWorld).
  - reflexivity.
  - reflexivity.
  - reflexivity.
  - reflexivity.
Defined.
